(** * Figures script: the numerical core of [Figures/figures_script.py]

    The script evaluates three closed-form models and plots them:
    the oscillating equation of state [w_z], the sigmoidal cutoff [S_z]
    and the phenomenological variance surface [variance_attractor],
    which [plot_resilience_valley] evaluates over a meshgrid while
    drawing from numpy's global random generator.

    Number model.  A numpy [float64] is read as an extended real: a
    real number, one of the two infinities, or NaN.  Arithmetic on
    finite values is exact (rounding and overflow are left out), and the
    special values follow IEEE-754 as numpy applies them: a division by
    zero gives an infinity or NaN, [log] of zero is minus infinity,
    every comparison with NaN is false.  Zero carries no sign; a zero
    divisor is read as [+0.0].  The overflow of [np.exp], the one
    operation that leaves the reals at ordinary arguments, is modelled
    in [Overflow], for the statements that depend on it.

    Python's own [float] division is different: it raises
    [ZeroDivisionError] on a zero divisor.  Which of the two divisions
    runs depends on the run-time type of the left operand, so the calls
    of [w_z] and [S_z] are modelled on a value that is either a Python
    float or a numpy array. *)

From Stdlib Require Import Reals Lra Lia List ZArith Bool.
From stdpp Require Import base list.
Import ListNotations.

Local Open Scope R_scope.

(** ** float64 values and numpy's elementwise operations *)

Inductive f64 : Type :=
  | Fin (x : R)
  | PInf
  | NInf
  | NaN.

Definition Rltb (x y : R) : bool := if Rlt_dec x y then true else false.
Definition Reqb (x y : R) : bool := if Req_dec_T x y then true else false.

(** The infinity of the given sign. *)
Definition inf_of_sign (neg : bool) : f64 := if neg then NInf else PInf.

Definition f64_opp (a : f64) : f64 :=
  match a with
  | Fin x => Fin (- x)
  | PInf => NInf
  | NInf => PInf
  | NaN => NaN
  end.

Definition f64_add (a b : f64) : f64 :=
  match a, b with
  | NaN, _ | _, NaN => NaN
  | Fin x, Fin y => Fin (x + y)
  | PInf, NInf | NInf, PInf => NaN
  | PInf, _ | _, PInf => PInf
  | NInf, _ | _, NInf => NInf
  end.

Definition f64_sub (a b : f64) : f64 := f64_add a (f64_opp b).

(** [true] when the value is negative (zero counts as [+0.0]). *)
Definition f64_signbit (a : f64) : bool :=
  match a with
  | Fin x => Rltb x 0
  | NInf => true
  | PInf | NaN => false
  end.

Definition f64_mul (a b : f64) : f64 :=
  match a, b with
  | NaN, _ | _, NaN => NaN
  | Fin x, Fin y => Fin (x * y)
  | Fin x, i | i, Fin x =>
      if Reqb x 0 then NaN else inf_of_sign (xorb (Rltb x 0) (f64_signbit i))
  | i, j => inf_of_sign (xorb (f64_signbit i) (f64_signbit j))
  end.

Definition f64_div (a b : f64) : f64 :=
  match a, b with
  | NaN, _ | _, NaN => NaN
  | Fin x, Fin y =>
      if Reqb y 0
      then (if Reqb x 0 then NaN else inf_of_sign (Rltb x 0))
      else Fin (x / y)
  | Fin _, _ => Fin 0
  | i, Fin y => inf_of_sign (xorb (f64_signbit i) (Rltb y 0))
  | _, _ => NaN
  end.

(** [x ** 2] *)
Definition f64_sqr (a : f64) : f64 := f64_mul a a.

(** [np.exp], [np.log], [np.cos] *)
Definition np_exp (a : f64) : f64 :=
  match a with
  | Fin x => Fin (exp x)
  | PInf => PInf
  | NInf => Fin 0
  | NaN => NaN
  end.

Definition np_log (a : f64) : f64 :=
  match a with
  | Fin x => if Rltb 0 x then Fin (ln x) else if Reqb x 0 then NInf else NaN
  | PInf => PInf
  | NInf | NaN => NaN
  end.

Definition np_cos (a : f64) : f64 :=
  match a with
  | Fin x => Fin (cos x)
  | _ => NaN
  end.

(** [a < b] and [a > b]; false as soon as one side is NaN. *)
Definition f64_ltb (a b : f64) : bool :=
  match a, b with
  | NaN, _ | _, NaN => false
  | Fin x, Fin y => Rltb x y
  | NInf, NInf | PInf, _ | _, NInf => false
  | NInf, _ | _, PInf => true
  end.

Definition f64_gtb (a b : f64) : bool := f64_ltb b a.

(** The order on float64 values as a proposition: [a <= b]. *)
Definition f64_le (a b : f64) : Prop :=
  match a, b with
  | NaN, _ | _, NaN => False
  | Fin x, Fin y => x <= y
  | NInf, _ | _, PInf => True
  | _, _ => False
  end.

(** Python's builtin [max(a, b)] on two arguments: the first one is
    kept unless the second is strictly greater. *)
Definition py_max (a b : f64) : f64 := if f64_gtb b a then b else a.

Declare Scope f64_scope.
Delimit Scope f64_scope with f64.
Bind Scope f64_scope with f64.
Notation "a + b" := (f64_add a b) : f64_scope.
Notation "a - b" := (f64_sub a b) : f64_scope.
Notation "a * b" := (f64_mul a b) : f64_scope.
Notation "a / b" := (f64_div a b) : f64_scope.
Notation "- a" := (f64_opp a) : f64_scope.
Notation "a <? b" := (f64_ltb a b) : f64_scope.
Notation "a >? b" := (f64_gtb a b) : f64_scope.
(** A float literal of the source. *)
Notation "# x" := (Fin x%R) (at level 5, format "# x") : f64_scope.

(** ** The scalar models *)

(** [w_z]: the expression of the source on one float64 element. *)
Definition w_z (z A omega delta z_tau : f64) : f64 :=
  (#(-1) + A * np_exp (- z / z_tau) * np_cos (omega * np_log (#1 + z) + delta))%f64.

(** [S_z] *)
Definition S_z (z z_c Delta_z : f64) : f64 :=
  (#1 / (#1 + np_exp ((z - z_c) / Delta_z)))%f64.

(** [deterministic_variance]: lines 146-165 of [variance_attractor],
    the local [variance] as it stands before the noise is added. *)
Definition deterministic_variance (tau_H0 omega : f64) : f64 :=
  (let R' := tau_H0 * omega in
   let valley_center := #2 in
   let valley_width := #3 in
   let valley_term := np_exp (- f64_sqr ((R' - valley_center) / valley_width)) in
   let base_variance := #0.15 in
   let valley_depth := #0.12 in
   let variance := base_variance - valley_depth * valley_term in
   let variance :=
     if (tau_H0 <? #0.3) || (tau_H0 >? #6) then variance + #0.1 else variance in
   let variance :=
     if (omega <? #0.5) || (omega >? #6) then variance + #0.1 else variance in
   variance)%f64.

(** ** Python values, exceptions and calls *)

Inductive exn : Type := ZeroDivisionError | IndexError.

Inductive outcome (T : Type) : Type :=
  | Returns (v : T)
  | Raises (e : exn).
Arguments Returns {T} v.
Arguments Raises {T} e.

(** What a caller may pass for [z]: a Python float, a numpy scalar or a
    one-dimensional numpy array. *)
Inductive pyval : Type :=
  | PyFloat (x : f64)
  | NpFloat (x : f64)
  | NdArray (xs : list f64).

Definition f64_is_zero (a : f64) : bool :=
  match a with Fin x => Reqb x 0 | _ => false end.

(** [num / d] for a Python float [d].  Between two Python floats the
    division is Python's and raises on a zero divisor; with a numpy
    operand on the left it is numpy's elementwise division, which by
    default only warns. *)
Definition py_truediv (num : pyval) (d : f64) : outcome pyval :=
  match num with
  | PyFloat x =>
      if f64_is_zero d then Raises ZeroDivisionError
      else Returns (PyFloat (x / d))
  | NpFloat x => Returns (NpFloat (x / d))
  | NdArray xs => Returns (NdArray (map (fun x => (x / d)%f64) xs))
  end.

(** A numpy expression applied to a value, elementwise on an array; the
    result of a ufunc on a scalar is a numpy scalar. *)
Definition np_elementwise (f : f64 -> f64) (v : pyval) : pyval :=
  match v with
  | PyFloat x | NpFloat x => NpFloat (f x)
  | NdArray xs => NdArray (map f xs)
  end.

Definition py_neg (v : pyval) : pyval :=
  match v with
  | PyFloat x => PyFloat (- x)
  | NpFloat x => NpFloat (- x)
  | NdArray xs => NdArray (map f64_opp xs)
  end.

Definition py_sub (v : pyval) (c : f64) : pyval :=
  match v with
  | PyFloat x => PyFloat (x - c)
  | NpFloat x => NpFloat (x - c)
  | NdArray xs => NdArray (map (fun x => (x - c)%f64) xs)
  end.

(** A call [w_z(z, A, omega, delta, z_tau)] with Python floats for the
    parameters.  The quotient [-z / z_tau] is evaluated first and is the
    only operation that can raise; everything after it is a numpy
    ufunc or arithmetic on its result, so the value is [w_z] on each
    element. *)
Definition call_w_z (z : pyval) (A omega delta z_tau : f64) : outcome pyval :=
  match py_truediv (py_neg z) z_tau with
  | Raises e => Raises e
  | Returns _ => Returns (np_elementwise (fun x => w_z x A omega delta z_tau) z)
  end.

(** A call [S_z(z, z_c, Delta_z)]; the quotient is
    [(z - z_c) / Delta_z]. *)
Definition call_S_z (z : pyval) (z_c Delta_z : f64) : outcome pyval :=
  match py_truediv (py_sub z z_c) Delta_z with
  | Raises e => Raises e
  | Returns _ => Returns (np_elementwise (fun x => S_z x z_c Delta_z) z)
  end.

(** ** Arrays *)

(** [np.linspace(start, stop, num)] *)
Definition linspace (start stop : R) (num : nat) : list f64 :=
  map (fun k => Fin (start + INR k * ((stop - start) / INR (num - 1))))
      (seq 0 num).

(** [np.meshgrid(xs, ys)] with the default ['xy'] indexing: both arrays
    have one row per element of [ys] and one column per element of
    [xs]. *)
Definition meshgrid (xs ys : list f64) : list (list f64) * list (list f64) :=
  (map (fun _ => xs) ys, map (fun y => map (fun _ => y) xs) ys).

Definition zeros_like (a : list (list f64)) : list (list f64) :=
  map (map (fun _ => Fin 0)) a.

(** [a.shape[0]] and [a.shape[1]] of a two-dimensional array. *)
Definition shape0 (a : list (list f64)) : nat := length a.
Definition shape1 (a : list (list f64)) : nat :=
  match a with [] => 0%nat | row :: _ => length row end.

(** [a[i, j]] *)
Definition getitem (a : list (list f64)) (i j : nat) : outcome f64 :=
  match a !! i with
  | Some row =>
      match row !! j with
      | Some x => Returns x
      | None => Raises IndexError
      end
  | None => Raises IndexError
  end.

(** [a[i, j] = v] *)
Definition setitem (a : list (list f64)) (i j : nat) (v : f64)
  : outcome (list (list f64)) :=
  match a !! i with
  | Some row =>
      if decide (j < length row)%nat
      then Returns (<[i := <[j := v]> row]> a)
      else Raises IndexError
  | None => Raises IndexError
  end.

(** ** Overflow

    The operations above are exact on the reals, so a result never
    leaves them through its magnitude.  For the addition, the product
    and the quotient of the script's scalars that is a matter of
    rounding only, but [np.exp] overflows at ordinary arguments: above
    about [709.78] it returns [inf].  Where a statement depends on it,
    [w_z] and [S_z] are read with the exponential below; the rest of
    the two expressions is unchanged. *)

Module Overflow.

(** A real result of this magnitude or beyond rounds to an infinity:
    [(2 - 2^-53) * 2^1023], half an ulp above the largest float64. *)
Definition f64_huge : R := (2 - / 2 ^ 53) * 2 ^ 1023.

(** [np.exp] *)
Definition np_exp (a : f64) : f64 :=
  match a with
  | Fin x => if Rltb (exp x) f64_huge then Fin (exp x) else PInf
  | PInf => PInf
  | NInf => Fin 0
  | NaN => NaN
  end.

(** [w_z] *)
Definition w_z (z A omega delta z_tau : f64) : f64 :=
  (#(-1) + A * np_exp (- z / z_tau) * np_cos (omega * np_log (#1 + z) + delta))%f64.

(** [S_z] *)
Definition S_z (z z_c Delta_z : f64) : f64 :=
  (#1 / (#1 + np_exp ((z - z_c) / Delta_z)))%f64.

End Overflow.

(** The value of [S_z] for real arguments: the logistic expression, and
    exactly 0 once the exponential has overflowed. *)
Definition saturating_logistic (u : R) : R :=
  if Rltb (exp u) Overflow.f64_huge then 1 / (1 + exp u) else 0.

(** ** The global random generator and the grid of Figure 3 *)

Section Script.

(** numpy's global generator: its state, the state [np.random.seed(n)]
    installs, and one standard normal draw.  The generator belongs to
    numpy, not to the script. *)
Variable rng_state : Type.
Variable seed_state : Z -> rng_state.
Variable randn : rng_state -> R * rng_state.

(** Code that reads and writes the generator state and may raise. *)
Definition M (T : Type) : Type := rng_state -> outcome (T * rng_state).

Definition ret {T} (v : T) : M T := fun s => Returns (v, s).

Definition bind {T U} (c : M T) (k : T -> M U) : M U :=
  fun s =>
    match c s with
    | Returns (v, s') => k v s'
    | Raises e => Raises e
    end.

Definition lift {T} (o : outcome T) : M T :=
  fun s =>
    match o with
    | Returns v => Returns (v, s)
    | Raises e => Raises e
    end.

Notation "x <- c ;; k" := (bind c (fun x => k))
  (at level 100, c at next level, right associativity).
Notation "c ;;; k" := (bind c (fun _ => k))
  (at level 100, right associativity).

(** [np.random.seed(n)] and [np.random.randn()] *)
Definition np_random_seed (n : Z) : M unit :=
  fun _ => Returns (tt, seed_state n).

Definition np_random_randn : M f64 :=
  fun s => let (x, s') := randn s in Returns (Fin x, s').

(** [variance_attractor] *)
Definition variance_attractor (tau_H0 omega A : f64) : M f64 :=
  let variance := deterministic_variance tau_H0 omega in
  x <- np_random_randn ;;
  let noise := (#0.01 * x)%f64 in
  ret (py_max (#0.01)%f64 (variance + noise)%f64).

(** [for i in l: s = body(i, s)], the loop variables that the body
    assigns being threaded as [s]. *)
Fixpoint for_each {S : Type} (l : list nat) (body : nat -> S -> M S) (s : S)
  : M S :=
  match l with
  | [] => ret s
  | i :: l' => s' <- body i s ;; for_each l' body s'
  end.

(** [for i in range(n)] *)
Definition for_range {S : Type} (n : nat) (body : nat -> S -> M S) (s : S)
  : M S :=
  for_each (seq 0 n) body s.

(** Line 187, the body of the inner loop:
    [VARIANCE[i, j] = variance_attractor(TAU[i, j], OMEGA[i, j])].  The
    call passes no third argument, so [A] is the default [0.02]. *)
Definition assign_cell (TAU OMEGA : list (list f64)) (i j : nat)
    (VARIANCE : list (list f64)) : M (list (list f64)) :=
  t <- lift (getitem TAU i j) ;;
  w <- lift (getitem OMEGA i j) ;;
  v <- variance_attractor t w (#0.02)%f64 ;;
  lift (setitem VARIANCE i j v).

(** Lines 179-187 of [plot_resilience_valley] for given coordinate
    sequences: the meshgrid, the seeding and the two nested loops that
    fill [VARIANCE]. *)
Definition resilience_grid (tau_H0_vals omega_vals : list f64)
  : M (list (list f64)) :=
  let '(TAU, OMEGA) := meshgrid tau_H0_vals omega_vals in
  np_random_seed 42 ;;;
  let VARIANCE := zeros_like TAU in
  for_range (shape0 TAU) (fun i VARIANCE =>
    for_range (shape1 TAU) (fun j VARIANCE =>
      assign_cell TAU OMEGA i j VARIANCE)
    VARIANCE)
  VARIANCE.

(** The grid [plot_resilience_valley] computes. *)
Definition plot_resilience_valley : M (list (list f64)) :=
  let tau_H0_vals := linspace 0.2 5.0 80 in
  let omega_vals := linspace 0.5 5.5 80 in
  resilience_grid tau_H0_vals omega_vals.

(** The generator state after [k] draws. *)
Fixpoint advance (k : nat) (s : rng_state) : rng_state :=
  match k with
  | O => s
  | S k' => advance k' (snd (randn s))
  end.

(** The value [variance_attractor] returns when the generator is in
    state [s]. *)
Definition cell (tau_H0 omega : f64) (s : rng_state) : f64 :=
  py_max (#0.01)%f64
    (deterministic_variance tau_H0 omega + #0.01 * Fin (fst (randn s)))%f64.

(** The penalty the source adds for a parameter outside [[lo, hi]]. *)
Definition penalty (lo hi x : R) : R :=
  if Rltb x lo || Rltb hi x then 0.1 else 0.

(** [VARIANCE] once the cells of linear index below [c] have been
    assigned, in row-major order, from the generator state [s0]: cell
    [(i, j)] holds the value of the call made after [i * m + j] draws,
    the others still hold the zero of [zeros_like]. *)
Definition filled (tau_H0_vals omega_vals : list f64) (s0 : rng_state)
    (c : nat) : list (list f64) :=
  imap (fun i w =>
    imap (fun j t =>
      if (i * length tau_H0_vals + j <? c)%nat
      then cell t w (advance (i * length tau_H0_vals + j) s0)
      else Fin 0) tau_H0_vals) omega_vals.

(** [true] on the real values, [false] on the infinities and NaN. *)
Definition f64_is_finite (a : f64) : bool :=
  match a with Fin _ => true | _ => false end.

(** ** The other computations of the figures *)

(** Calls made one after the other in a loop that touches no generator
    state; the first exception ends the loop. *)
Fixpoint outcome_map {T U : Type} (f : T -> outcome U) (l : list T)
  : outcome (list U) :=
  match l with
  | [] => Returns []
  | x :: l' =>
      match f x with
      | Raises e => Raises e
      | Returns y =>
          match outcome_map f l' with
          | Raises e => Raises e
          | Returns ys => Returns (y :: ys)
          end
      end
  end.

(** Lines 44-59 of [plot_wz_different_amplitudes]: the curve [w] of
    each amplitude, in the order of [amplitudes]. *)
Definition plot_wz_different_amplitudes : outcome (list pyval) :=
  let z := NdArray (linspace 0 2.5 500) in
  let omega := Fin 2.5 in
  let delta := Fin 0.0 in
  let z_tau := Fin 2.0 in
  let amplitudes := [Fin 0.0; Fin 0.01; Fin 0.02; Fin 0.03] in
  outcome_map (fun A => call_w_z z A omega delta z_tau) amplitudes.

(** Lines 95-104 of [plot_geometric_cutoff]: the arrays [S] (here
    [S']), [S_zc3] and [S_zc5]. *)
Definition plot_geometric_cutoff : outcome (pyval * pyval * pyval) :=
  let z := NdArray (linspace 0 10 500) in
  let z_c := Fin 4.0 in
  let Delta_z := Fin 0.5 in
  match call_S_z z z_c Delta_z with
  | Raises e => Raises e
  | Returns S' =>
      match call_S_z z (Fin 3.0) (Fin 0.5) with
      | Raises e => Raises e
      | Returns S_zc3 =>
          match call_S_z z (Fin 5.0) (Fin 0.5) with
          | Raises e => Raises e
          | Returns S_zc5 => Returns (S', S_zc3, S_zc5)
          end
      end
  end.

(** [[f(t) for t in l]] for an [f] that uses the generator. *)
Fixpoint list_comprehension {T U : Type} (f : T -> M U) (l : list T)
  : M (list U) :=
  match l with
  | [] => ret []
  | t :: l' =>
      v <- f t ;;
      vs <- list_comprehension f l' ;;
      ret (v :: vs)
  end.

(** Line 200: [[variance_attractor(t, 2.0/t) for t in tau_valley]].
    Iterating over an array yields numpy scalars, so [2.0/t] is numpy's
    division. *)
Definition valley_line (tau_valley : list f64) : M (list f64) :=
  list_comprehension
    (fun t => variance_attractor t (Fin 2.0 / t)%f64 (Fin 0.02)) tau_valley.

(** Lines 176-200 of [plot_resilience_valley]: the grid, then the
    variances along the valley line.  The rendering calls in between
    do not draw from numpy's generator and are left out. *)
Definition plot_resilience_valley_lines : M (list (list f64) * list f64) :=
  VARIANCE <- plot_resilience_valley ;;
  let tau_valley := linspace 0.3 4.0 100 in
  variance_valley <- valley_line tau_valley ;;
  ret (VARIANCE, variance_valley).

(** [l[skip::step]]: the elements at positions [skip], [skip + step],
    [skip + 2 step], ... *)
Fixpoint slice_from {T : Type} (step skip : nat) (l : list T) : list T :=
  match l with
  | [] => []
  | x :: l' =>
      match skip with
      | O => x :: slice_from step (step - 1) l'
      | S skip' => slice_from step skip' l'
      end
  end.

(** [l[::step]] *)
Definition slice_step {T : Type} (step : nat) (l : list T) : list T :=
  slice_from step 0 l.

(** [zip(a, b, c)]: as long as the shortest of the three. *)
Fixpoint zip3 {A B C : Type} (la : list A) (lb : list B) (lc : list C)
  : list (A * B * C) :=
  match la, lb, lc with
  | a :: la', b :: lb', c :: lc' => (a, b, c) :: zip3 la' lb' lc'
  | _, _, _ => []
  end.

(** Lines 206-211 of [plot_resilience_valley]: the triples
    [(t, ol, oh)] of the loop that draws one segment from
    [omega = ol] to [omega = oh] at [tau_H0 = t]. *)
Definition resilience_region_segments : list (f64 * f64 * f64) :=
  let tau_region := linspace 0.3 4.0 50 in
  let omega_low := map (fun t => (Fin 0.5 / t)%f64) tau_region in
  let omega_high := map (fun t => (Fin 3.5 / t)%f64) tau_region in
  zip3 (slice_step 5 tau_region) (slice_step 5 omega_low)
    (slice_step 5 omega_high).

(** ** Properties of the float64 operations *)

Lemma Rltb_true x y : Rltb x y = true <-> x < y.
Proof. unfold Rltb; destruct (Rlt_dec x y); split; intros; try easy. Qed.

Lemma Rltb_false x y : Rltb x y = false <-> y <= x.
Proof.
  unfold Rltb; destruct (Rlt_dec x y); split; intros; try easy; lra.
Qed.

Lemma Reqb_true x y : Reqb x y = true <-> x = y.
Proof. unfold Reqb; destruct (Req_dec_T x y); split; intros; try easy. Qed.

Lemma Reqb_false x y : Reqb x y = false <-> x <> y.
Proof. unfold Reqb; destruct (Req_dec_T x y); split; intros; try easy. Qed.

Lemma f64_div_fin (x y : R) : y <> 0 -> (Fin x / Fin y)%f64 = Fin (x / y).
Proof. intros Hy; simpl. apply Reqb_false in Hy. now rewrite Hy. Qed.

Lemma f64_div_zero (x : R) :
  (Fin x / Fin 0)%f64
  = if Reqb x 0 then NaN else if Rltb x 0 then NInf else PInf.
Proof.
  simpl. assert (H : Reqb 0 0 = true) by now apply Reqb_true.
  rewrite H. destruct (Reqb x 0); [reflexivity|]. now destruct (Rltb x 0).
Qed.

Lemma np_log_pos (x : R) : 0 < x -> np_log (Fin x) = Fin (ln x).
Proof. intros Hx; simpl. apply Rltb_true in Hx. now rewrite Hx. Qed.

Lemma f64_ltb_fin (x y : R) : (Fin x <? Fin y)%f64 = Rltb x y.
Proof. reflexivity. Qed.

Lemma py_max_fin (x y : R) : py_max (Fin x) (Fin y) = Fin (Rmax x y).
Proof.
  unfold py_max, f64_gtb; simpl. unfold Rltb, Rmax.
  destruct (Rlt_dec x y), (Rle_dec x y); try reflexivity; try lra.
  f_equal; lra.
Qed.

(** [max(a, b)] is never below its first argument, whatever [b] is. *)
Lemma py_max_lower (x : R) (b : f64) : f64_le (Fin x) (py_max (Fin x) b).
Proof.
  unfold py_max, f64_gtb. destruct b as [y| | |]; simpl; try lra.
  destruct (Rltb x y) eqn:E; simpl; [apply Rltb_true in E|]; lra.
Qed.

(** ** The scalar models on real arguments *)

Lemma w_z_fin (z A omega delta z_tau : R) :
  z > -1 -> z_tau <> 0 ->
  w_z (Fin z) (Fin A) (Fin omega) (Fin delta) (Fin z_tau)
  = Fin (-1 + A * exp (- z / z_tau) * cos (omega * ln (1 + z) + delta)).
Proof.
  intros Hz Ht. unfold w_z.
  change (- Fin z)%f64 with (Fin (- z)).
  rewrite f64_div_fin by assumption.
  change (#1 + Fin z)%f64 with (Fin (1 + z)).
  rewrite np_log_pos by lra. reflexivity.
Qed.

Lemma S_z_fin (z z_c Delta_z : R) :
  Delta_z <> 0 ->
  S_z (Fin z) (Fin z_c) (Fin Delta_z)
  = Fin (1 / (1 + exp ((z - z_c) / Delta_z))).
Proof.
  intros Hd. unfold S_z.
  change (Fin z - Fin z_c)%f64 with (Fin (z - z_c)).
  rewrite f64_div_fin by assumption. simpl np_exp.
  change (#1 + Fin (exp ((z - z_c) / Delta_z)))%f64
    with (Fin (1 + exp ((z - z_c) / Delta_z))).
  apply f64_div_fin.
  pose proof (exp_pos ((z - z_c) / Delta_z)). lra.
Qed.

(** C6.  For a width [Delta_z <> 0], [S_z] returns exactly
    [1 / (1 + exp((z - z_c)/Delta_z))]; at the centre the value is one
    half, in particular [S_z(4.0, 4.0, 0.5) = 0.5]. *)
Theorem S_z_closed_form (z z_c Delta_z : R) :
  Delta_z <> 0 ->
  S_z (Fin z) (Fin z_c) (Fin Delta_z)
  = Fin (1 / (1 + exp ((z - z_c) / Delta_z)))
  /\ call_S_z (PyFloat (Fin z)) (Fin z_c) (Fin Delta_z)
     = Returns (NpFloat (Fin (1 / (1 + exp ((z - z_c) / Delta_z)))))
  /\ S_z (Fin z_c) (Fin z_c) (Fin Delta_z) = Fin 0.5
  /\ S_z (Fin 4.0) (Fin 4.0) (Fin 0.5) = Fin 0.5.
Proof.
  intros Hd.
  assert (Hc : forall c d : R, d <> 0 -> S_z (Fin c) (Fin c) (Fin d) = Fin 0.5).
  { intros c d Hd'. rewrite S_z_fin by assumption. f_equal.
    replace ((c - c) / d) with 0 by (field; assumption).
    rewrite exp_0. lra. }
  repeat split.
  - now apply S_z_fin.
  - unfold call_S_z; simpl py_truediv. apply Reqb_false in Hd as Hd'.
    rewrite Hd'. simpl np_elementwise. now rewrite S_z_fin.
  - now apply Hc.
  - apply Hc. lra.
Qed.

(** The logistic value is decreasing in its exponent. *)
Lemma logistic_decreasing (u v : R) :
  u < v -> 1 / (1 + exp v) < 1 / (1 + exp u).
Proof.
  intros Huv. pose proof (exp_pos u). pose proof (exp_pos v).
  pose proof (exp_increasing u v Huv).
  unfold Rdiv. rewrite !Rmult_1_l.
  apply Rinv_lt_contravar; [apply Rmult_lt_0_compat|]; lra.
Qed.

Lemma logistic_bounds (u : R) : 0 < 1 / (1 + exp u) < 1.
Proof.
  pose proof (exp_pos u).
  assert (0 < / (1 + exp u)) by (apply Rinv_0_lt_compat; lra).
  assert (/ (1 + exp u) < / 1) by (apply Rinv_lt_contravar; lra).
  rewrite Rinv_1 in *. lra.
Qed.

(** [1 / (1 + exp u)] is below [exp (- u)], and its distance to 1 is
    below [exp u]. *)
Lemma logistic_tail_high (u : R) : 1 / (1 + exp u) < exp (- u).
Proof.
  pose proof (exp_pos u) as Hu. rewrite exp_Ropp.
  unfold Rdiv. rewrite Rmult_1_l.
  apply Rinv_lt_contravar; [apply Rmult_lt_0_compat|]; lra.
Qed.

Lemma logistic_tail_low (u : R) : 1 - 1 / (1 + exp u) < exp u.
Proof.
  pose proof (exp_pos u) as Hu.
  replace (1 - 1 / (1 + exp u)) with (exp u * / (1 + exp u))
    by (field; lra).
  assert (/ (1 + exp u) < / 1) by (apply Rinv_lt_contravar; lra).
  rewrite Rinv_1 in *.
  rewrite <- (Rmult_1_r (exp u)) at 3.
  apply Rmult_lt_compat_l; lra.
Qed.

(** C8, as the code has it.  With [z_tau = 0] (or [Delta_z = 0]) the
    call raises [ZeroDivisionError] when [z] is a Python float; when
    [z] is a numpy array, as in every call of the script, or a numpy
    scalar, nothing is raised and the call returns the elementwise
    values, infinities and NaN included. *)
Theorem zero_divisor_by_operand_type
    (x A omega delta z_c : f64) (xs : list f64) :
  call_w_z (PyFloat x) A omega delta (Fin 0) = Raises ZeroDivisionError
  /\ call_S_z (PyFloat x) z_c (Fin 0) = Raises ZeroDivisionError
  /\ call_w_z (NdArray xs) A omega delta (Fin 0)
     = Returns (NdArray (map (fun x => w_z x A omega delta (Fin 0)) xs))
  /\ call_S_z (NdArray xs) z_c (Fin 0)
     = Returns (NdArray (map (fun x => S_z x z_c (Fin 0)) xs))
  /\ call_w_z (NpFloat x) A omega delta (Fin 0)
     = Returns (NpFloat (w_z x A omega delta (Fin 0)))
  /\ call_S_z (NpFloat x) z_c (Fin 0)
     = Returns (NpFloat (S_z x z_c (Fin 0))).
Proof.
  assert (H0 : Reqb 0 0 = true) by now apply Reqb_true.
  unfold call_w_z, call_S_z; simpl. rewrite H0. repeat split.
Qed.

(** ** The variance attractor *)

Lemma penalty_inside (lo hi x : R) : lo <= x <= hi -> penalty lo hi x = 0.
Proof.
  intros [Hl Hh]. unfold penalty.
  apply Rltb_false in Hl, Hh. now rewrite Hl, Hh.
Qed.

Lemma penalty_outside (lo hi x : R) :
  x < lo \/ x > hi -> penalty lo hi x = 0.1.
Proof.
  intros [H|H]; unfold penalty; apply Rltb_true in H; rewrite H;
    [reflexivity | now rewrite orb_true_r].
Qed.

Lemma penalty_range (lo hi x : R) : 0 <= penalty lo hi x <= 0.1.
Proof. unfold penalty. destruct (_ || _); lra. Qed.

Lemma deterministic_variance_fin (tau_H0 omega : R) :
  deterministic_variance (Fin tau_H0) (Fin omega)
  = Fin (0.15 - 0.12 * exp (- ((tau_H0 * omega - 2) / 3) ^ 2)
         + penalty 0.3 6 tau_H0 + penalty 0.5 6 omega).
Proof.
  unfold deterministic_variance, f64_sqr, f64_gtb, penalty.
  change (Fin tau_H0 * Fin omega)%f64 with (Fin (tau_H0 * omega)).
  change (Fin (tau_H0 * omega) - #2)%f64 with (Fin (tau_H0 * omega - 2)).
  rewrite f64_div_fin by lra.
  cbn [f64_mul f64_opp np_exp f64_sub f64_add f64_ltb].
  destruct (Rltb tau_H0 0.3 || Rltb 6 tau_H0),
    (Rltb omega 0.5 || Rltb 6 omega);
    cbn [f64_add]; f_equal;
    replace (((tau_H0 * omega - 2) / 3) ^ 2)
      with ((tau_H0 * omega - 2) / 3 * ((tau_H0 * omega - 2) / 3)) by ring;
    lra.
Qed.

(** One call draws once and returns [cell]. *)
Lemma variance_attractor_run (tau_H0 omega A : f64) (s : rng_state) :
  variance_attractor tau_H0 omega A s
  = Returns (cell tau_H0 omega s, snd (randn s)).
Proof.
  unfold variance_attractor, bind, np_random_randn, ret, cell.
  now destruct (randn s).
Qed.

(** C1.  The noise-free component is
    [0.15 - 0.12 exp(-((tau_H0 omega - 2)/3)^2)] plus [0.1] when
    [tau_H0] is outside [[0.3, 6]] plus [0.1] when [omega] is outside
    [[0.5, 6]]; it is the value the noise is added to before the clamp;
    on the valley line inside both ranges it is exactly [0.03]. *)
Theorem deterministic_component (tau_H0 omega : R) :
  exists p_tau p_omega : R,
    let base := 0.15 - 0.12 * exp (- ((tau_H0 * omega - 2) / 3) ^ 2) in
    deterministic_variance (Fin tau_H0) (Fin omega)
    = Fin (base + p_tau + p_omega)
    /\ (0.3 <= tau_H0 <= 6 -> p_tau = 0)
    /\ (tau_H0 < 0.3 \/ tau_H0 > 6 -> p_tau = 0.1)
    /\ (0.5 <= omega <= 6 -> p_omega = 0)
    /\ (omega < 0.5 \/ omega > 6 -> p_omega = 0.1)
    /\ (forall (A : f64) (s : rng_state),
          variance_attractor (Fin tau_H0) (Fin omega) A s
          = Returns (py_max (Fin 0.01)
                       (Fin (base + p_tau + p_omega + 0.01 * fst (randn s))),
                     snd (randn s)))
    /\ (tau_H0 * omega = 2 -> 0.3 <= tau_H0 <= 6 -> 0.5 <= omega <= 6 ->
          deterministic_variance (Fin tau_H0) (Fin omega) = Fin 0.03).
Proof.
  exists (penalty 0.3 6 tau_H0), (penalty 0.5 6 omega). cbv zeta.
  split; [apply deterministic_variance_fin|].
  split; [apply penalty_inside|]. split; [apply penalty_outside|].
  split; [apply penalty_inside|]. split; [apply penalty_outside|].
  split.
  - intros A s. rewrite variance_attractor_run. unfold cell.
    now rewrite deterministic_variance_fin.
  - intros HR Ht Hw. rewrite deterministic_variance_fin.
    rewrite (penalty_inside _ _ _ Ht), (penalty_inside _ _ _ Hw), HR.
    f_equal. replace (- ((2 - 2) / 3) ^ 2) with 0 by field.
    rewrite exp_0. lra.
Qed.

(** C2.  Whatever the arguments and whatever the draw, the call
    returns, and its value is at least [0.01]: not NaN, not negative,
    not zero. *)
Theorem variance_floor (tau_H0 omega A : f64) (s : rng_state) :
  exists (r : f64) (s' : rng_state),
    variance_attractor tau_H0 omega A s = Returns (r, s')
    /\ f64_le (Fin 0.01) r
    /\ r <> Fin 0
    /\ ~ f64_le r (Fin 0).
Proof.
  exists (cell tau_H0 omega s), (snd (randn s)).
  split; [apply variance_attractor_run|].
  pose proof (py_max_lower 0.01
    (deterministic_variance tau_H0 omega + #0.01 * Fin (fst (randn s)))%f64)
    as Hlow.
  fold (cell tau_H0 omega s) in Hlow.
  destruct (cell tau_H0 omega s) as [y| | |]; simpl in *;
    repeat split; try easy; try lra.
  intros Heq. injection Heq as ->. lra.
Qed.

(** C9.  The amplitude argument does not reach the result. *)
Theorem amplitude_unused (tau_H0 omega A1 A2 : f64) (s : rng_state) :
  variance_attractor tau_H0 omega A1 s = variance_attractor tau_H0 omega A2 s.
Proof. reflexivity. Qed.

Lemma valley_term_range (x : R) : 0 < exp (- x ^ 2) <= 1.
Proof.
  split; [apply exp_pos|].
  assert (Hx : 0 <= x ^ 2) by (apply pow2_ge_0).
  destruct Hx as [Hx|Hx].
  - left. rewrite <- exp_0. apply exp_increasing. lra.
  - rewrite <- Hx, Ropp_0, exp_0. lra.
Qed.

(** C10.  The noise-free component lies in [[0.03, 0.35]], so the
    clamp at [0.01] changes the value only for a noise term below
    [-0.02]. *)
Theorem deterministic_range (tau_H0 omega : R) (A : f64) (s : rng_state) :
  exists v : R,
    deterministic_variance (Fin tau_H0) (Fin omega) = Fin v
    /\ 0.03 <= v <= 0.35
    /\ let noise := 0.01 * fst (randn s) in
       exists (r : f64) (s' : rng_state),
         variance_attractor (Fin tau_H0) (Fin omega) A s = Returns (r, s')
         /\ (r <> Fin (v + noise) -> noise < -0.02).
Proof.
  eexists. split; [apply deterministic_variance_fin|].
  pose proof (valley_term_range ((tau_H0 * omega - 2) / 3)) as Hv.
  pose proof (penalty_range 0.3 6 tau_H0) as Ht.
  pose proof (penalty_range 0.5 6 omega) as Hw.
  split; [lra|]. cbv zeta.
  do 2 eexists. split; [apply variance_attractor_run|].
  unfold cell. rewrite deterministic_variance_fin.
  cbn [f64_mul f64_add]. rewrite py_max_fin.
  intros Hne. unfold Rmax in Hne.
  destruct (Rle_dec 0.01 _) as [Hle|Hgt]; [now contradict Hne|]. lra.
Qed.

(** ** The grid of Figure 3 *)

Lemma map_is_fmap {T U : Type} (f : T -> U) (l : list T) : map f l = f <$> l.
Proof. reflexivity. Qed.

Lemma advance_succ (k : nat) (s : rng_state) :
  advance (S k) s = snd (randn (advance k s)).
Proof. revert s. induction k as [|k IH]; intros s; [reflexivity|].
  change (advance (S (S k)) s) with (advance (S k) (snd (randn s))).
  now rewrite IH.
Qed.

Section Grid.

Variables tau_H0_vals omega_vals : list f64.
Variable s0 : rng_state.

Let m := length tau_H0_vals.
Let n := length omega_vals.
Let TAU := fst (meshgrid tau_H0_vals omega_vals).
Let OMEGA := snd (meshgrid tau_H0_vals omega_vals).

Lemma getitem_TAU (i j : nat) (t w : f64) :
  tau_H0_vals !! j = Some t -> omega_vals !! i = Some w ->
  getitem TAU i j = Returns t.
Proof.
  intros Ht Hw. unfold getitem, TAU, meshgrid; simpl fst.
  rewrite map_is_fmap, list_lookup_fmap, Hw; simpl. now rewrite Ht.
Qed.

Lemma getitem_OMEGA (i j : nat) (t w : f64) :
  tau_H0_vals !! j = Some t -> omega_vals !! i = Some w ->
  getitem OMEGA i j = Returns w.
Proof.
  intros Ht Hw. unfold getitem, OMEGA, meshgrid; simpl snd.
  rewrite map_is_fmap, list_lookup_fmap, Hw; simpl.
  rewrite map_is_fmap, list_lookup_fmap, Ht. reflexivity.
Qed.

Lemma shape_TAU : shape0 TAU = n /\ ((0 < n)%nat -> shape1 TAU = m).
Proof.
  unfold shape0, shape1, TAU, meshgrid, n; simpl fst. split.
  - apply length_map.
  - destruct omega_vals; simpl; [lia | reflexivity].
Qed.

Lemma zeros_like_TAU : zeros_like TAU = filled tau_H0_vals omega_vals s0 0.
Proof.
  unfold zeros_like, TAU, meshgrid, filled; simpl fst.
  rewrite !map_is_fmap. apply list_eq; intros i.
  rewrite !list_lookup_fmap, list_lookup_imap.
  destruct (omega_vals !! i); simpl; [|reflexivity]. f_equal.
  apply list_eq; intros j. rewrite map_is_fmap, list_lookup_fmap, list_lookup_imap.
  now destruct (tau_H0_vals !! j).
Qed.

(** Two cells of the grid have the same linear index only if they are
    the same cell. *)
Lemma linear_index_inj (i j i' j' : nat) :
  (j < m)%nat -> (j' < m)%nat ->
  (i * m + j = i' * m + j')%nat -> i = i' /\ j = j'.
Proof. intros Hj Hj' Heq. assert (i = i') by nia. subst. lia. Qed.

(** Assigning the next cell in row-major order. *)
Lemma setitem_filled (i j : nat) (t w : f64) :
  tau_H0_vals !! j = Some t -> omega_vals !! i = Some w ->
  setitem (filled tau_H0_vals omega_vals s0 (i * m + j)) i j
    (cell t w (advance (i * m + j) s0))
  = Returns (filled tau_H0_vals omega_vals s0 (S (i * m + j))).
Proof.
  intros Ht Hw.
  assert (Hj : (j < m)%nat) by (eapply lookup_lt_Some; eassumption).
  assert (Hi : (i < n)%nat) by (eapply lookup_lt_Some; eassumption).
  set (next := filled _ _ _ (S _)).
  unfold setitem, filled. rewrite list_lookup_imap, Hw; simpl.
  rewrite length_imap. fold m. destruct (decide (j < m)%nat); [|lia].
  f_equal. apply list_eq; intros i'.
  rewrite list_lookup_insert, length_imap. subst next. unfold filled. fold m.
  rewrite !list_lookup_imap.
  case_decide as Hne; [destruct Hne as [<- _]|].
  - rewrite Hw; simpl. f_equal. apply list_eq; intros j'.
    rewrite list_lookup_insert, length_imap, !list_lookup_imap.
    case_decide as Hnj; [destruct Hnj as [<- _]|].
    + rewrite Ht; simpl. f_equal.
      destruct (Nat.ltb_spec (i * m + j) (S (i * m + j))); [reflexivity | lia].
    + destruct (tau_H0_vals !! j') as [t'|] eqn:Ht'; simpl; [|reflexivity].
      apply lookup_lt_Some in Ht' as Hj'. fold m in Hj'.
      f_equal.
      destruct (Nat.ltb_spec (i * m + j') (i * m + j)),
        (Nat.ltb_spec (i * m + j') (S (i * m + j))); try reflexivity; try lia.
  - destruct (omega_vals !! i') as [w'|] eqn:Hw'; simpl; [|reflexivity].
    apply lookup_lt_Some in Hw' as Hi'.
    assert (i <> i') by (intros ->; apply Hne; split; [reflexivity | assumption]).
    f_equal. apply imap_ext; intros j' t' Ht'.
    apply lookup_lt_Some in Ht' as Hj'. fold m in Hj'.
    destruct (Nat.ltb_spec (i' * m + j') (i * m + j)),
      (Nat.ltb_spec (i' * m + j') (S (i * m + j))); try reflexivity; try lia.
    assert (Heq : (i * m + j = i' * m + j')%nat) by lia.
    apply linear_index_inj in Heq; [|assumption..]. lia.
Qed.

Lemma assign_cell_run (i j : nat) (t w : f64) :
  tau_H0_vals !! j = Some t -> omega_vals !! i = Some w ->
  assign_cell TAU OMEGA i j
    (filled tau_H0_vals omega_vals s0 (i * m + j)) (advance (i * m + j) s0)
  = Returns (filled tau_H0_vals omega_vals s0 (S (i * m + j)),
             advance (S (i * m + j)) s0).
Proof.
  intros Ht Hw. unfold assign_cell, bind, lift.
  rewrite (getitem_TAU i j t w Ht Hw), (getitem_OMEGA i j t w Ht Hw).
  rewrite variance_attractor_run, (setitem_filled i j t w Ht Hw).
  now rewrite advance_succ.
Qed.

(** The inner loop from column [j0] on, [k] columns. *)
Lemma inner_loop_run (i : nat) (w : f64) (k : nat) :
  omega_vals !! i = Some w ->
  forall j0 : nat, (j0 + k <= m)%nat ->
  for_each (seq j0 k) (fun j V => assign_cell TAU OMEGA i j V)
    (filled tau_H0_vals omega_vals s0 (i * m + j0)) (advance (i * m + j0) s0)
  = Returns (filled tau_H0_vals omega_vals s0 (i * m + j0 + k),
             advance (i * m + j0 + k) s0).
Proof.
  intros Hw. induction k as [|k IH]; intros j0 Hk; simpl.
  - unfold ret. now rewrite Nat.add_0_r.
  - destruct (lookup_lt_is_Some_2 tau_H0_vals j0) as [t Ht]; [fold m; lia|].
    unfold bind. rewrite (assign_cell_run i j0 t w Ht Hw).
    replace (S (i * m + j0)) with (i * m + S j0)%nat by lia.
    rewrite IH by lia. do 2 f_equal; f_equal; lia.
Qed.

(** The outer loop from row [i0] on, [k] rows. *)
Lemma outer_loop_run (k : nat) :
  forall i0 : nat, (i0 + k <= n)%nat ->
  for_each (seq i0 k)
    (fun i V =>
       for_range (shape1 TAU) (fun j V => assign_cell TAU OMEGA i j V) V)
    (filled tau_H0_vals omega_vals s0 (i0 * m)) (advance (i0 * m) s0)
  = Returns (filled tau_H0_vals omega_vals s0 ((i0 + k) * m),
             advance ((i0 + k) * m) s0).
Proof.
  set (body := fun (i : nat) (V : list (list f64)) => for_range _ _ V).
  induction k as [|k IH]; intros i0 Hk; simpl.
  - unfold ret. now rewrite Nat.add_0_r.
  - destruct (lookup_lt_is_Some_2 omega_vals i0) as [w Hw]; [fold n; lia|].
    assert (Hrow : body i0 (filled tau_H0_vals omega_vals s0 (i0 * m))
                     (advance (i0 * m) s0)
                   = Returns (filled tau_H0_vals omega_vals s0 (S i0 * m),
                              advance (S i0 * m) s0)).
    { subst body; cbv beta. destruct shape_TAU as [_ Hs]. rewrite Hs by lia.
      pose proof (inner_loop_run i0 w m Hw 0%nat) as Hin.
      rewrite !Nat.add_0_r in Hin. unfold for_range. rewrite Hin by lia.
      do 2 f_equal; f_equal; lia. }
    unfold bind. rewrite Hrow, IH by lia. do 2 f_equal; f_equal; lia.
Qed.

End Grid.

(** The whole of lines 179-187: whatever state the generator was in,
    the grid is the one filled from the state that seed 42 installs,
    and one draw per cell has been consumed. *)
Lemma resilience_grid_run (tau_H0_vals omega_vals : list f64) (g : rng_state) :
  resilience_grid tau_H0_vals omega_vals g
  = Returns (filled tau_H0_vals omega_vals (seed_state 42)
               (length omega_vals * length tau_H0_vals),
             advance (length omega_vals * length tau_H0_vals) (seed_state 42)).
Proof.
  unfold resilience_grid, bind, np_random_seed, for_range.
  pose proof (zeros_like_TAU tau_H0_vals omega_vals (seed_state 42)) as Hz.
  pose proof (shape_TAU tau_H0_vals omega_vals) as [Hs _].
  pose proof (outer_loop_run tau_H0_vals omega_vals (seed_state 42)
                (length omega_vals) 0%nat) as Hrun.
  cbn [meshgrid fst snd] in *. rewrite Hz, Hs. apply Hrun. lia.
Qed.

Lemma getitem_filled (tau_H0_vals omega_vals : list f64) (s0 : rng_state)
    (i j : nat) (t w : f64) :
  tau_H0_vals !! j = Some t -> omega_vals !! i = Some w ->
  getitem (filled tau_H0_vals omega_vals s0
             (length omega_vals * length tau_H0_vals)) i j
  = Returns (cell t w (advance (i * length tau_H0_vals + j) s0)).
Proof.
  intros Ht Hw. unfold getitem, filled.
  rewrite list_lookup_imap, Hw; simpl. rewrite list_lookup_imap, Ht; simpl.
  apply lookup_lt_Some in Ht, Hw.
  destruct (Nat.ltb_spec (i * length tau_H0_vals + j)
              (length omega_vals * length tau_H0_vals)); [reflexivity | nia].
Qed.

Lemma shape_filled (tau_H0_vals omega_vals : list f64) (s0 : rng_state)
    (c : nat) :
  map length (filled tau_H0_vals omega_vals s0 c)
  = map (fun _ => length tau_H0_vals) omega_vals.
Proof.
  unfold filled. rewrite !map_is_fmap. apply list_eq; intros i.
  rewrite !list_lookup_fmap, list_lookup_imap.
  destruct (omega_vals !! i); simpl; [|reflexivity].
  now rewrite length_imap.
Qed.

Lemma shape_meshgrid (tau_H0_vals omega_vals : list f64) :
  map length (fst (meshgrid tau_H0_vals omega_vals))
  = map (fun _ => length tau_H0_vals) omega_vals
  /\ map length (snd (meshgrid tau_H0_vals omega_vals))
     = map (fun _ => length tau_H0_vals) omega_vals.
Proof.
  unfold meshgrid; simpl. rewrite !map_map. split; [reflexivity|].
  apply map_ext; intros w. apply length_map.
Qed.

(** C3.  For coordinate sequences of lengths [m] and [n] the grid
    evaluation returns an array with the row lengths of both meshes;
    its cell [[i, j]] is what [variance_attractor] returns for
    [(tau_H0_vals[j], omega_vals[i])] on the draw number [i * m + j]
    after the seeding, and [n * m] draws have been consumed at the
    end: row-major order, one draw per cell. *)
Theorem grid_row_major (tau_H0_vals omega_vals : list f64) (g : rng_state) :
  let m := length tau_H0_vals in
  let n := length omega_vals in
  let s0 := seed_state 42 in
  exists VARIANCE : list (list f64),
    resilience_grid tau_H0_vals omega_vals g
    = Returns (VARIANCE, advance (n * m) s0)
    /\ map length VARIANCE = map length (fst (meshgrid tau_H0_vals omega_vals))
    /\ map length VARIANCE = map length (snd (meshgrid tau_H0_vals omega_vals))
    /\ forall (i j : nat) (t w : f64),
         tau_H0_vals !! j = Some t -> omega_vals !! i = Some w ->
         exists v : f64,
           getitem VARIANCE i j = Returns v
           /\ variance_attractor t w (Fin 0.02) (advance (i * m + j) s0)
              = Returns (v, advance (S (i * m + j)) s0).
Proof.
  intros m n s0. eexists. split; [apply resilience_grid_run|].
  destruct (shape_meshgrid tau_H0_vals omega_vals) as [H1 H2].
  rewrite H1, H2, shape_filled. do 2 (split; [reflexivity|]).
  intros i j t w Ht Hw. eexists. split.
  - apply getitem_filled; eassumption.
  - rewrite variance_attractor_run. now rewrite advance_succ.
Qed.

(** C4.  Two runs of the grid evaluation on the same coordinate
    sequences return the same array, whatever states the generator is
    in when they start: the seeding with 42 replaces the state before
    the first cell is computed. *)
Theorem grid_reproducible (tau_H0_vals omega_vals : list f64)
    (g1 g2 : rng_state) :
  exists (VARIANCE : list (list f64)) (s : rng_state),
    resilience_grid tau_H0_vals omega_vals g1 = Returns (VARIANCE, s)
    /\ resilience_grid tau_H0_vals omega_vals g2 = Returns (VARIANCE, s)
    /\ plot_resilience_valley g1 = plot_resilience_valley g2.
Proof.
  do 2 eexists. split; [apply resilience_grid_run|].
  split; [apply resilience_grid_run|].
  unfold plot_resilience_valley. now rewrite !resilience_grid_run.
Qed.

(** ** Further properties of [w_z] and [S_z] *)

Lemma w_z_oscillation (z A omega delta z_tau : R) :
  z > -1 -> z_tau <> 0 ->
  exists w : R,
    w_z (Fin z) (Fin A) (Fin omega) (Fin delta) (Fin z_tau) = Fin w
    /\ Rabs (w + 1) <= Rabs A * exp (- z / z_tau)
    /\ (z >= 0 -> z_tau > 0 -> -1 - Rabs A <= w <= -1 + Rabs A).
Proof.
  intros Hz Ht. eexists. split; [now apply w_z_fin|].
  set (e := exp (- z / z_tau)). set (c := cos (omega * ln (1 + z) + delta)).
  assert (He : 0 < e) by apply exp_pos.
  assert (Hc : Rabs c <= 1) by (apply Rabs_le, COS_bound).
  assert (Henv : Rabs (-1 + A * e * c + 1) <= Rabs A * e).
  { replace (-1 + A * e * c + 1) with (A * e * c) by ring.
    rewrite !Rabs_mult, (Rabs_right e) by lra.
    pose proof (Rabs_pos A).
    rewrite <- (Rmult_1_r (Rabs A * e)) at 2.
    apply Rmult_le_compat_l; [nra | assumption]. }
  split; [exact Henv|]. intros Hz0 Htau.
  assert (He1 : e <= 1).
  { unfold e. rewrite <- exp_0.
    assert (Hq : - z / z_tau <= 0).
    { unfold Rdiv. assert (0 < / z_tau) by now apply Rinv_0_lt_compat. nra. }
    destruct Hq as [Hq|Hq]; [left; now apply exp_increasing | rewrite Hq; lra]. }
  pose proof (Rabs_pos A).
  assert (Hb : Rabs (-1 + A * e * c + 1) <= Rabs A) by nra.
  unfold Rabs at 1 in Hb. destruct (Rcase_abs (-1 + A * e * c + 1)); lra.
Qed.

Lemma f64_mul_nan_r (a : f64) : (a * NaN)%f64 = NaN.
Proof. now destruct a. Qed.

Lemma f64_add_nan_r (a : f64) : (a + NaN)%f64 = NaN.
Proof. now destruct a. Qed.

Lemma np_cos_not_finite (a : f64) : f64_is_finite a = false -> np_cos a = NaN.
Proof. now destruct a. Qed.

Lemma f64_mul_not_finite (a b : f64) :
  f64_is_finite b = false -> f64_is_finite (a * b)%f64 = false.
Proof.
  destruct a as [x| | |], b as [y| | |]; simpl; try easy;
    destruct (Reqb x 0); simpl; try easy; now destruct (Rltb x 0).
Qed.

Lemma f64_add_not_finite (a b : f64) :
  f64_is_finite a = false -> f64_is_finite (a + b)%f64 = false.
Proof. now destruct a, b. Qed.

(** X2.  At and below [z = -1] the logarithm leaves the reals; [w_z] raises
    nothing and returns NaN, whatever the other arguments are, also
    when it is called on a Python float. *)
Theorem w_z_below_domain (z : R) (A omega delta z_tau : f64) :
  z <= -1 ->
  w_z (Fin z) A omega delta z_tau = NaN
  /\ (f64_is_zero z_tau = false ->
      call_w_z (PyFloat (Fin z)) A omega delta z_tau = Returns (NpFloat NaN)).
Proof.
  intros Hz.
  assert (Hw : w_z (Fin z) A omega delta z_tau = NaN).
  { unfold w_z. change (#1 + Fin z)%f64 with (Fin (1 + z)).
    assert (Hlog : f64_is_finite (np_log (Fin (1 + z))) = false).
    { simpl. assert (Hn : Rltb 0 (1 + z) = false) by (apply Rltb_false; lra).
      rewrite Hn. now destruct (Reqb (1 + z) 0). }
    rewrite (np_cos_not_finite _
      (f64_add_not_finite _ delta (f64_mul_not_finite omega _ Hlog))).
    now rewrite f64_mul_nan_r, f64_add_nan_r. }
  split; [exact Hw|]. intros Hnz.
  unfold call_w_z; simpl py_truediv. rewrite Hnz. simpl. now rewrite Hw.
Qed.

(** X3.  With [z_tau = 0] on numpy input the exponential collapses: for
    [z > 0] the value is exactly [-1] whatever the amplitude, and at
    [z = 0] it is NaN. *)
Theorem w_z_zero_decay_scale (z A omega delta : R) :
  z >= 0 ->
  w_z (Fin z) (Fin A) (Fin omega) (Fin delta) (Fin 0)
  = if Reqb z 0 then NaN else Fin (-1).
Proof.
  intros Hz. unfold w_z. change (- Fin z)%f64 with (Fin (- z)).
  rewrite f64_div_zero. change (#1 + Fin z)%f64 with (Fin (1 + z)).
  rewrite np_log_pos by lra.
  destruct (Reqb z 0) eqn:Ez.
  - apply Reqb_true in Ez. subst z.
    assert (H0 : Reqb (- 0) 0 = true) by (apply Reqb_true; lra).
    now rewrite H0.
  - apply Reqb_false in Ez.
    assert (H0 : Reqb (- z) 0 = false) by (apply Reqb_false; lra).
    assert (H1 : Rltb (- z) 0 = true) by (apply Rltb_true; lra).
    rewrite H0, H1. cbn [np_exp f64_mul f64_add np_cos]. f_equal. ring.
Qed.

Lemma logistic_complement (u : R) :
  1 / (1 + exp (- u)) = 1 - 1 / (1 + exp u).
Proof.
  pose proof (exp_pos u) as Hu. rewrite exp_Ropp. field. lra.
Qed.

(** X6.  [S_z] is point-symmetric about its centre, and reversing the sign
    of the width complements it: [S_z(z_c + d) + S_z(z_c - d) = 1] and
    [S_z(z, z_c, -Delta_z) = 1 - S_z(z, z_c, Delta_z)]. *)
Theorem S_z_complement (z z_c d Delta_z : R) :
  Delta_z <> 0 ->
  exists y1 y2 y y' : R,
    S_z (Fin (z_c + d)) (Fin z_c) (Fin Delta_z) = Fin y1
    /\ S_z (Fin (z_c - d)) (Fin z_c) (Fin Delta_z) = Fin y2
    /\ y1 + y2 = 1
    /\ S_z (Fin z) (Fin z_c) (Fin Delta_z) = Fin y
    /\ S_z (Fin z) (Fin z_c) (Fin (- Delta_z)) = Fin y'
    /\ y' = 1 - y.
Proof.
  intros Hd. assert (Hd' : - Delta_z <> 0) by lra.
  do 4 eexists.
  split; [now apply S_z_fin|]. split; [now apply S_z_fin|]. split.
  - replace ((z_c - d - z_c) / Delta_z) with (- ((z_c + d - z_c) / Delta_z))
      by (field; assumption).
    rewrite logistic_complement. lra.
  - split; [now apply S_z_fin|]. split; [now apply S_z_fin|].
    replace ((z - z_c) / - Delta_z) with (- ((z - z_c) / Delta_z))
      by (field; assumption).
    apply logistic_complement.
Qed.

(** X8.  With [Delta_z = 0] on numpy input [S_z] degenerates to a step: 1
    below the centre, 0 above it, NaN at the centre. *)
Theorem S_z_zero_width (z z_c : R) :
  S_z (Fin z) (Fin z_c) (Fin 0)
  = if Reqb z z_c then NaN else if Rltb z z_c then Fin 1 else Fin 0.
Proof.
  unfold S_z. change (Fin z - Fin z_c)%f64 with (Fin (z - z_c)).
  rewrite f64_div_zero.
  destruct (Reqb z z_c) eqn:Ez.
  - apply Reqb_true in Ez.
    assert (H0 : Reqb (z - z_c) 0 = true) by (apply Reqb_true; lra).
    now rewrite H0.
  - apply Reqb_false in Ez.
    assert (H0 : Reqb (z - z_c) 0 = false) by (apply Reqb_false; lra).
    rewrite H0. destruct (Rltb z z_c) eqn:El.
    + apply Rltb_true in El.
      assert (H1 : Rltb (z - z_c) 0 = true) by (apply Rltb_true; lra).
      rewrite H1. cbn [np_exp f64_add]. rewrite f64_div_fin by lra.
      f_equal. field.
    + apply Rltb_false in El.
      assert (H1 : Rltb (z - z_c) 0 = false) by (apply Rltb_false; lra).
      rewrite H1. reflexivity.
Qed.

(** ** Further properties of the variance attractor *)

(** X11.  Inside the band [0.5 <= tau_H0 * omega <= 3.5] of the docstring,
    with both parameters in range, the noise-free component is at most
    [0.06]; with a parameter out of range it is at least [0.13]. *)
Theorem resilience_band_bound (tau_H0 omega : R) :
  exists v : R,
    deterministic_variance (Fin tau_H0) (Fin omega) = Fin v
    /\ (0.5 <= tau_H0 * omega <= 3.5 ->
        0.3 <= tau_H0 <= 6 -> 0.5 <= omega <= 6 -> v <= 0.06)
    /\ (tau_H0 < 0.3 \/ tau_H0 > 6 \/ omega < 0.5 \/ omega > 6 -> 0.13 <= v).
Proof.
  eexists. split; [apply deterministic_variance_fin|].
  set (x := (tau_H0 * omega - 2) / 3).
  pose proof (valley_term_range x) as Hv.
  pose proof (penalty_range 0.3 6 tau_H0) as Ht.
  pose proof (penalty_range 0.5 6 omega) as Hw.
  split.
  - intros HR Hti Hwi.
    rewrite (penalty_inside _ _ _ Hti), (penalty_inside _ _ _ Hwi).
    pose proof (exp_ineq1_le (- x ^ 2)) as He.
    assert (Hx : x ^ 2 <= 0.25) by (unfold x; nra). lra.
  - intros [H|[H|[H|H]]].
    + rewrite (penalty_outside 0.3 6 tau_H0) by (left; exact H). lra.
    + rewrite (penalty_outside 0.3 6 tau_H0) by (right; exact H). lra.
    + rewrite (penalty_outside 0.5 6 omega) by (left; exact H). lra.
    + rewrite (penalty_outside 0.5 6 omega) by (right; exact H). lra.
Qed.

Lemma f64_mul_nan_l (a : f64) : (NaN * a)%f64 = NaN.
Proof. now destruct a. Qed.

Lemma deterministic_variance_nan (tau_H0 omega : f64) :
  (tau_H0 * omega)%f64 = NaN -> deterministic_variance tau_H0 omega = NaN.
Proof.
  intros HR. unfold deterministic_variance. rewrite HR. cbn.
  now destruct (_ || _), (_ || _).
Qed.

(** X12.  A NaN coordinate is masked: the call returns exactly [0.01],
    whatever the other coordinate and the draw. *)
Theorem variance_attractor_nan (a A : f64) (s : rng_state) :
  variance_attractor NaN a A s = Returns (Fin 0.01, snd (randn s))
  /\ variance_attractor a NaN A s = Returns (Fin 0.01, snd (randn s)).
Proof.
  rewrite !variance_attractor_run. unfold cell.
  rewrite !deterministic_variance_nan
    by (apply f64_mul_nan_l || apply f64_mul_nan_r).
  split; reflexivity.
Qed.

(** ** The sampled curves of Figures 1 and 2 *)

Lemma linspace_length (a b : R) (num : nat) : length (linspace a b num) = num.
Proof. unfold linspace. now rewrite length_map, length_seq. Qed.

Lemma linspace_lookup (a b : R) (num k : nat) (z : f64) :
  linspace a b num !! k = Some z ->
  z = Fin (a + INR k * ((b - a) / INR (num - 1))) /\ (k < num)%nat.
Proof.
  unfold linspace. rewrite map_is_fmap, list_lookup_fmap.
  destruct (seq 0 num !! k) as [k'|] eqn:Hk; simpl; [|discriminate].
  apply lookup_seq in Hk as [-> Hlt]. intros [= <-]. now split.
Qed.

(** The samples of [np.linspace(a, b, num)] lie between the end
    points. *)
Lemma linspace_between (a b : R) (num k : nat) (z : f64) :
  a <= b -> linspace a b num !! k = Some z ->
  exists r : R, z = Fin r /\ a <= r <= b.
Proof.
  intros Hab Hz. apply linspace_lookup in Hz as [-> Hk].
  eexists. split; [reflexivity|].
  destruct (Nat.eq_dec (num - 1)%nat 0%nat) as [Hn|Hn].
  - assert (k = 0%nat) by lia. subst k. simpl INR. lra.
  - assert (HN : 0 < INR (num - 1)) by (apply lt_0_INR; lia).
    assert (Hk0 : 0 <= INR k) by apply pos_INR.
    assert (HkN : INR k <= INR (num - 1)) by (apply le_INR; lia).
    assert (Hinv : 0 < / INR (num - 1)) by now apply Rinv_0_lt_compat.
    assert (Hq : 0 <= INR k * / INR (num - 1) <= 1).
    { split; [nra|]. apply Rmult_le_reg_r with (INR (num - 1)); [lra|].
      rewrite Rmult_assoc, Rinv_l by lra. lra. }
    unfold Rdiv. nra.
Qed.

Lemma call_w_z_array (zs : list f64) (A omega delta z_tau : f64) :
  call_w_z (NdArray zs) A omega delta z_tau
  = Returns (NdArray (map (fun x => w_z x A omega delta z_tau) zs)).
Proof. reflexivity. Qed.

Lemma call_S_z_array (zs : list f64) (z_c Delta_z : f64) :
  call_S_z (NdArray zs) z_c Delta_z
  = Returns (NdArray (map (fun x => S_z x z_c Delta_z) zs)).
Proof. reflexivity. Qed.

(** X14.  Figure 1.  The four calls of [w_z] return; each curve has the 500
    samples of [z], and every sample lies inside the axis limits
    [(-1.04, -0.96)] that the function sets; the curve of [A = 0],
    for which the horizontal line [y = -1] is drawn instead, is [-1]
    at every sample. *)
Theorem wz_curves_in_view :
  exists w0 w1 w2 w3 : list f64,
    plot_wz_different_amplitudes
    = Returns [NdArray w0; NdArray w1; NdArray w2; NdArray w3]
    /\ (forall (i : nat) (ws : list f64),
          [w0; w1; w2; w3] !! i = Some ws ->
          length ws = 500%nat
          /\ forall (k : nat) (w : f64), ws !! k = Some w ->
               exists r : R, w = Fin r /\ -1.04 < r < -0.96)
    /\ (forall (k : nat) (w : f64), w0 !! k = Some w -> w = Fin (-1)).
Proof.
  unfold plot_wz_different_amplitudes. cbn [outcome_map].
  rewrite !call_w_z_array.
  set (curve := fun A : f64 =>
         map (fun x => w_z x A (Fin 2.5) (Fin 0.0) (Fin 2.0))
           (linspace 0 2.5 500)).
  assert (Hcurve : forall (A : R) (k : nat) (w : f64),
            0 <= A <= 0.03 -> curve (Fin A) !! k = Some w ->
            exists r : R, w = Fin r /\ -1 - A <= r <= -1 + A).
  { intros A k w HA. unfold curve. rewrite map_is_fmap, list_lookup_fmap.
    destruct (linspace 0 2.5 500 !! k) as [z|] eqn:Hz; simpl; [|discriminate].
    apply linspace_between in Hz as (r & -> & Hr); [|lra]. intros [= <-].
    replace (Fin 0.0) with (Fin 0) by (f_equal; lra).
    destruct (w_z_oscillation r A 2.5 0 2.0) as (w & Hw & _ & Hb); [lra..|].
    exists w. split; [exact Hw|]. rewrite Rabs_right in Hb by lra.
    apply Hb; lra. }
  assert (Hlen : forall A : f64, length (curve A) = 500%nat)
    by (intros A; unfold curve; now rewrite length_map, linspace_length).
  assert (H00 : Fin 0.0 = Fin 0) by (f_equal; lra).
  exists (curve (Fin 0.0)), (curve (Fin 0.01)), (curve (Fin 0.02)),
    (curve (Fin 0.03)).
  split; [reflexivity|]. clearbody curve. split.
  - intros i ws Hi.
    assert (Hws : exists A : R, ws = curve (Fin A) /\ 0 <= A <= 0.03).
    { destruct i as [|[|[|[|i]]]]; simpl in Hi; try discriminate;
        injection Hi as <-.
      - exists 0. rewrite H00. split; [reflexivity | lra].
      - exists 0.01. split; [reflexivity | lra].
      - exists 0.02. split; [reflexivity | lra].
      - exists 0.03. split; [reflexivity | lra]. }
    destruct Hws as (A & -> & HA). split; [apply Hlen|].
    intros k w Hk. destruct (Hcurve A k w HA Hk) as (r & -> & Hr).
    exists r. split; [reflexivity | lra].
  - intros k w Hk. rewrite H00 in Hk.
    destruct (Hcurve 0 k w) as (r & -> & Hr); [lra | exact Hk |].
    f_equal. lra.
Qed.

(** X15.  Figure 2.  The three calls of [S_z] return arrays of the 500
    samples of [z]; at every sample the early curve ([z_c = 3]) is
    below the nominal one ([z_c = 4]), which is below the late one
    ([z_c = 5]), and all three are strictly between 0 and 1, so the
    filled region between 0 and [S] is never empty or inverted. *)
Theorem cutoff_curves_ordered :
  exists s s3 s5 : list f64,
    plot_geometric_cutoff = Returns (NdArray s, NdArray s3, NdArray s5)
    /\ length s = 500%nat /\ length s3 = 500%nat /\ length s5 = 500%nat
    /\ forall k : nat, (k < 500)%nat ->
         exists y y3 y5 : R,
           s !! k = Some (Fin y) /\ s3 !! k = Some (Fin y3)
           /\ s5 !! k = Some (Fin y5)
           /\ 0 < y3 /\ y3 < y /\ y < y5 /\ y5 < 1.
Proof.
  unfold plot_geometric_cutoff. rewrite !call_S_z_array.
  do 3 eexists. split; [reflexivity|].
  rewrite !length_map, linspace_length. do 3 (split; [reflexivity|]).
  intros k Hk.
  destruct (lookup_lt_is_Some_2 (linspace 0 10 500) k) as [z Hz];
    [now rewrite linspace_length|].
  apply linspace_lookup in Hz as Hzr. destruct Hzr as [Hzr _].
  rewrite !map_is_fmap, !list_lookup_fmap, Hz; simpl. subst z.
  set (r := 0 + INR k * ((10 - 0) / INR (500 - 1))).
  rewrite !S_z_fin by lra. do 3 eexists.
  do 3 (split; [reflexivity|]).
  assert (Hi : 0 < / 0.5) by (apply Rinv_0_lt_compat; lra).
  split; [apply logistic_bounds|].
  split; [apply logistic_decreasing; unfold Rdiv; nra|].
  split; [apply logistic_decreasing; unfold Rdiv; nra|].
  apply logistic_bounds.
Qed.

(** ** Further properties of the grid and of the valley line *)

(** X16.  Every cell of the grid is at least [0.01], for any coordinate
    sequences: no zero left by [zeros_like] survives the loops. *)
Theorem grid_cells_floor (tau_H0_vals omega_vals : list f64) (g : rng_state) :
  exists (VARIANCE : list (list f64)) (s : rng_state),
    resilience_grid tau_H0_vals omega_vals g = Returns (VARIANCE, s)
    /\ forall (i j : nat) (v : f64),
         getitem VARIANCE i j = Returns v -> f64_le (Fin 0.01) v.
Proof.
  do 2 eexists. split; [apply resilience_grid_run|].
  intros i j v. unfold getitem, filled. rewrite list_lookup_imap.
  destruct (omega_vals !! i) as [w|] eqn:Hw; simpl; [|discriminate].
  rewrite list_lookup_imap.
  destruct (tau_H0_vals !! j) as [t|] eqn:Ht; simpl; [|discriminate].
  apply lookup_lt_Some in Ht, Hw.
  destruct (Nat.ltb_spec (i * length tau_H0_vals + j)
              (length omega_vals * length tau_H0_vals)); [|nia].
  intros [= <-]. apply py_max_lower.
Qed.

Lemma advance_add (a b : nat) (s : rng_state) :
  advance a (advance b s) = advance (b + a) s.
Proof.
  revert s. induction b as [|b IH]; intros s; [reflexivity|].
  simpl. apply IH.
Qed.

Lemma valley_line_run (tau_valley : list f64) (s : rng_state) :
  valley_line tau_valley s
  = Returns (imap (fun k t => cell t (Fin 2.0 / t)%f64 (advance k s))
               tau_valley,
             advance (length tau_valley) s).
Proof.
  unfold valley_line. revert s.
  induction tau_valley as [|t l IH]; intros s; [reflexivity|].
  cbn [list_comprehension]. unfold bind at 1.
  rewrite variance_attractor_run. unfold bind at 1. rewrite IH.
  reflexivity.
Qed.

(** X17.  The list comprehension of line 200 returns one variance per
    element of [tau_valley], in order, the [k]-th from the [k]-th draw;
    it consumes one draw per element and raises nothing, not even for
    [t = 0], where [2.0 / t] is numpy's division. *)
Theorem valley_line_draws (tau_valley : list f64) (s : rng_state) :
  exists variance_valley : list f64,
    valley_line tau_valley s
    = Returns (variance_valley, advance (length tau_valley) s)
    /\ length variance_valley = length tau_valley
    /\ forall (k : nat) (t : f64), tau_valley !! k = Some t ->
         exists v : f64,
           variance_valley !! k = Some v
           /\ variance_attractor t (Fin 2.0 / t)%f64 (Fin 0.02) (advance k s)
              = Returns (v, advance (S k) s)
           /\ f64_le (Fin 0.01) v.
Proof.
  eexists. split; [apply valley_line_run|]. split; [apply length_imap|].
  intros k t Hk. eexists.
  split; [rewrite list_lookup_imap, Hk; reflexivity|]. split.
  - rewrite variance_attractor_run, advance_succ. reflexivity.
  - apply py_max_lower.
Qed.

(** X18.  Figure 3 draws 6500 samples in all: the valley line is computed
    after the 80 x 80 grid from the same stream, so its [k]-th value
    comes from draw number [6400 + k] after the seeding. *)
Theorem valley_line_after_grid (g : rng_state) :
  exists (VARIANCE : list (list f64)) (variance_valley : list f64),
    plot_resilience_valley_lines g
    = Returns ((VARIANCE, variance_valley), advance (80 * 80 + 100) (seed_state 42))
    /\ plot_resilience_valley g
       = Returns (VARIANCE, advance (80 * 80) (seed_state 42))
    /\ length variance_valley = 100%nat
    /\ forall (k : nat) (t : f64), linspace 0.3 4.0 100 !! k = Some t ->
         variance_valley !! k
         = Some (cell t (Fin 2.0 / t)%f64
                   (advance (80 * 80 + k) (seed_state 42))).
Proof.
  unfold plot_resilience_valley_lines, plot_resilience_valley, bind.
  rewrite resilience_grid_run, !linspace_length, valley_line_run.
  rewrite linspace_length, advance_add. unfold ret.
  do 2 eexists. split; [reflexivity|]. split; [reflexivity|].
  split; [now rewrite length_imap, linspace_length|].
  intros k t Hk. rewrite list_lookup_imap, Hk, advance_add. reflexivity.
Qed.

(** ** Further edge values *)

(** X4.  Today's value: at [z = 0] the result is [-1 + A cos(delta)],
    whatever the frequency and the (non-zero) decay scale. *)
Theorem w_z_today (A omega delta z_tau : R) :
  z_tau <> 0 ->
  w_z (Fin 0) (Fin A) (Fin omega) (Fin delta) (Fin z_tau)
  = Fin (-1 + A * cos delta).
Proof.
  intros Ht. rewrite w_z_fin by (assumption || lra). f_equal.
  replace (- 0 / z_tau) with 0 by (field; assumption).
  replace (1 + 0) with 1 by ring.
  rewrite ln_1, exp_0, Rmult_0_r, Rplus_0_l. ring.
Qed.

(** X9.  On the infinities, for a width [Delta_z > 0], [S_z] takes its limit
    values: 1 at minus infinity and 0 at plus infinity; NaN stays NaN. *)
Theorem S_z_at_infinity (z_c Delta_z : R) :
  Delta_z > 0 ->
  S_z NInf (Fin z_c) (Fin Delta_z) = Fin 1
  /\ S_z PInf (Fin z_c) (Fin Delta_z) = Fin 0
  /\ S_z NaN (Fin z_c) (Fin Delta_z) = NaN.
Proof.
  intros Hd. unfold S_z.
  assert (Hn : Rltb Delta_z 0 = false) by (apply Rltb_false; lra).
  change (NInf - Fin z_c)%f64 with NInf.
  change (PInf - Fin z_c)%f64 with PInf.
  change (NInf / Fin Delta_z)%f64
    with (inf_of_sign (xorb true (Rltb Delta_z 0))).
  change (PInf / Fin Delta_z)%f64
    with (inf_of_sign (xorb false (Rltb Delta_z 0))).
  rewrite Hn. cbn [xorb inf_of_sign np_exp].
  change (#1 + Fin 0)%f64 with (Fin (1 + 0)).
  rewrite f64_div_fin by lra.
  split; [f_equal; field|]. split; reflexivity.
Qed.

(** ** The sample points of Figure 3 *)

Lemma Fin_inj (x y : R) : Fin x = Fin y -> x = y.
Proof. now intros [= ->]. Qed.

Lemma INR_79 : INR 79 = 79.
Proof. rewrite INR_IZR_INZ. reflexivity. Qed.

Lemma INR_99 : INR 99 = 99.
Proof. rewrite INR_IZR_INZ. reflexivity. Qed.

Lemma INR_ge_2 (k : nat) : (2 <= k)%nat -> 2 <= INR k.
Proof. intros H. apply le_INR in H. simpl in H. lra. Qed.

Lemma INR_ge_1 (k : nat) : (1 <= k)%nat -> 1 <= INR k.
Proof. intros H. apply le_INR in H. simpl in H. lra. Qed.

(** X19.  On the 80 x 80 grid of Figure 3 the [omega] penalty never applies,
    and the [tau_H0] penalty applies in the first two columns only. *)
Theorem grid_penalised_columns (i j : nat) (t w : f64) :
  linspace 0.2 5.0 80 !! j = Some t -> linspace 0.5 5.5 80 !! i = Some w ->
  exists tr wr : R,
    t = Fin tr /\ w = Fin wr
    /\ deterministic_variance t w
       = Fin (0.15 - 0.12 * exp (- ((tr * wr - 2) / 3) ^ 2)
              + (if (j <? 2)%nat then 0.1 else 0)).
Proof.
  intros Ht Hw.
  apply linspace_between in Hw as Hwb; [|lra]. destruct Hwb as (wr & -> & Hwr).
  apply linspace_between in Ht as Htb; [|lra]. destruct Htb as (tr & Htr & Hb).
  apply linspace_lookup in Ht as [Ht Hj]. rewrite Htr in Ht.
  apply Fin_inj in Ht. change (80 - 1)%nat with 79%nat in Ht.
  rewrite INR_79 in Ht. subst t.
  exists tr, wr. do 2 (split; [reflexivity|]).
  rewrite deterministic_variance_fin, (penalty_inside 0.5 6 wr) by lra.
  f_equal. destruct (Nat.ltb_spec j 2) as [Hlt|Hge].
  - rewrite penalty_outside; [lra|]. left.
    assert (INR j <= 1).
    { destruct j as [|[|j]]; [simpl; lra | simpl; lra | lia]. }
    lra.
  - apply INR_ge_2 in Hge. rewrite penalty_inside; lra.
Qed.

(** X20.  Of the 100 points of the valley line drawn in Figure 3 only the
    first, [t = 0.3], is penalised: its noise-free component is [0.13],
    that of the 99 others is the minimum [0.03]. *)
Theorem valley_line_samples (k : nat) (t : f64) :
  linspace 0.3 4.0 100 !! k = Some t ->
  deterministic_variance t (Fin 2.0 / t)%f64
  = Fin (if (k =? 0)%nat then 0.13 else 0.03).
Proof.
  intros Ht.
  apply linspace_between in Ht as Htb; [|lra]. destruct Htb as (tr & Htr & Hb).
  apply linspace_lookup in Ht as [Ht Hk]. rewrite Htr in Ht.
  apply Fin_inj in Ht. change (100 - 1)%nat with 99%nat in Ht.
  rewrite INR_99 in Ht. rewrite Htr.
  rewrite f64_div_fin by lra. rewrite deterministic_variance_fin.
  rewrite (penalty_inside 0.3 6 tr) by lra.
  assert (Hone : tr * / tr = 1) by (apply Rinv_r; lra).
  assert (HR : tr * (2.0 / tr) = 2) by (unfold Rdiv; nra).
  rewrite HR. replace (- ((2 - 2) / 3) ^ 2) with 0 by field.
  rewrite exp_0. f_equal.
  assert (Hinv : 0 < / tr) by (apply Rinv_0_lt_compat; lra).
  destruct (Nat.eqb_spec k 0) as [->|Hne].
  - simpl INR in Ht. rewrite penalty_outside; [lra|]. right.
    unfold Rdiv. apply Rmult_lt_reg_r with tr; [lra|].
    rewrite Rmult_assoc, Rinv_l by lra. lra.
  - assert (Hk1 : 1 <= INR k) by (apply INR_ge_1; lia).
    rewrite penalty_inside; [lra|]. split.
    + unfold Rdiv. apply Rmult_le_reg_r with tr; [lra|].
      rewrite Rmult_assoc, Rinv_l by lra. lra.
    + unfold Rdiv. apply Rmult_le_reg_r with tr; [lra|].
      rewrite Rmult_assoc, Rinv_l by lra. lra.
Qed.

(** ** The band markers of Figure 3 *)

Lemma slice_from_map {T U : Type} (f : T -> U) (step : nat) (l : list T) :
  forall skip : nat,
    slice_from step skip (map f l) = map f (slice_from step skip l).
Proof.
  induction l as [|x l IH]; intros skip; [reflexivity|].
  destruct skip as [|skip]; simpl; now rewrite IH.
Qed.

Lemma zip3_map {T U V : Type} (f : T -> U) (g : T -> V) (l : list T) :
  zip3 l (map f l) (map g l) = map (fun x => (x, f x, g x)) l.
Proof. induction l as [|x l IH]; [reflexivity|]. simpl. now rewrite IH. Qed.

Lemma slice_from_lookup {T : Type} (step : nat) (l : list T) :
  (0 < step)%nat ->
  forall skip q : nat,
    slice_from step skip l !! q = l !! (skip + q * step)%nat.
Proof.
  intros Hstep. induction l as [|x l IH]; intros skip q; [reflexivity|].
  destruct skip as [|skip]; simpl.
  - destruct q as [|q]; simpl; [reflexivity|].
    rewrite IH. destruct step as [|step]; [lia|]. simpl.
    f_equal. lia.
  - apply IH.
Qed.

(** X21.  The band markers are drawn at every fifth sample of [tau_region],
    ten in all; the slices stay aligned, so the marker at [t] runs from
    [omega = 0.5 / t] to [omega = 3.5 / t], that is across the band
    [0.5 <= t * omega <= 3.5] of the docstring. *)
Theorem region_segments_span_band :
  length resilience_region_segments = 10%nat
  /\ forall (q : nat) (t ol oh : f64),
       resilience_region_segments !! q = Some (t, ol, oh) ->
       exists tr : R,
         linspace 0.3 4.0 50 !! (q * 5)%nat = Some t
         /\ t = Fin tr /\ 0.3 <= tr <= 4.0
         /\ ol = Fin (0.5 / tr) /\ oh = Fin (3.5 / tr)
         /\ tr * (0.5 / tr) = 0.5 /\ tr * (3.5 / tr) = 3.5.
Proof.
  unfold resilience_region_segments, slice_step.
  rewrite !slice_from_map, zip3_map. split.
  - rewrite length_map. unfold linspace. rewrite slice_from_map, length_map.
    reflexivity.
  - intros q t ol oh. rewrite map_is_fmap, list_lookup_fmap.
    rewrite slice_from_lookup by lia. simpl Nat.add.
    destruct (linspace 0.3 4.0 50 !! (q * 5)%nat) as [t'|] eqn:Ht; simpl;
      [|discriminate].
    intros [= <- <- <-].
    apply linspace_between in Ht as Hb; [|lra]. destruct Hb as (tr & -> & Hb).
    exists tr. split; [reflexivity|]. split; [reflexivity|].
    split; [exact Hb|].
    assert (Hnz : Reqb tr 0 = false) by (apply Reqb_false; lra).
    rewrite Hnz.
    do 2 (split; [reflexivity|]).
    assert (Hone : tr * / tr = 1) by (apply Rinv_r; lra).
    unfold Rdiv. split; nra.
Qed.

End Script.

(** ** The theorems at concrete inputs *)

(** Settles the comparisons of real constants left in a goal. *)
Ltac decide_reals :=
  unfold Reqb, Rltb;
  repeat match goal with
    | |- context [Req_dec_T ?a ?b] => destruct (Req_dec_T a b); try lra
    | |- context [Rlt_dec ?a ?b] => destruct (Rlt_dec a b); try lra
    end.

Lemma S_z_closed_form_witness :
  0.5 <> 0
  /\ S_z (Fin 3) (Fin 4) (Fin 0.5) = Fin (1 / (1 + exp ((3 - 4) / 0.5))).
Proof.
  assert (H : 0.5 <> 0) by lra.
  split; [exact H|]. exact (proj1 (S_z_closed_form 3 4 0.5 H)).
Defined.

(** C8 as stated fails on an array: with [z = np.array([1.0])] and a
    zero divisor nothing is raised; [w_z] returns [array([-1.])] and
    [S_z] returns [array([1.])]. *)
Lemma zero_divisor_on_array_returns :
  call_w_z (NdArray [Fin 1]) (Fin 0.02) (Fin 2.5) (Fin 0) (Fin 0)
  = Returns (NdArray [Fin (-1)])
  /\ call_S_z (NdArray [Fin 1]) (Fin 4) (Fin 0) = Returns (NdArray [Fin 1])
  /\ call_w_z (NdArray [Fin 1]) (Fin 0.02) (Fin 2.5) (Fin 0) (Fin 0)
     <> Raises ZeroDivisionError
  /\ call_S_z (NdArray [Fin 1]) (Fin 4) (Fin 0) <> Raises ZeroDivisionError.
Proof.
  assert (Hw : w_z (Fin 1) (Fin 0.02) (Fin 2.5) (Fin 0) (Fin 0) = Fin (-1)).
  { unfold w_z. change (- Fin 1)%f64 with (Fin (- 1)).
    rewrite f64_div_zero. change (#1 + Fin 1)%f64 with (Fin (1 + 1)).
    rewrite np_log_pos by lra. decide_reals.
    cbn [np_exp f64_mul f64_add np_cos]. f_equal. ring. }
  assert (Hs : S_z (Fin 1) (Fin 4) (Fin 0) = Fin 1).
  { unfold S_z. change (Fin 1 - Fin 4)%f64 with (Fin (1 - 4)).
    rewrite f64_div_zero. decide_reals.
    cbn [np_exp f64_add]. rewrite f64_div_fin by lra. f_equal. field. }
  unfold call_w_z, call_S_z; cbn [py_neg py_sub py_truediv np_elementwise map].
  rewrite Hw, Hs. repeat split; discriminate.
Qed.

Lemma w_z_below_domain_witness :
  -2 <= -1
  /\ w_z (Fin (-2)) (Fin 0.02) (Fin 2.5) (Fin 0) (Fin 2) = NaN.
Proof.
  assert (H : -2 <= -1) by lra. split; [exact H|].
  exact (proj1 (w_z_below_domain (-2) (Fin 0.02) (Fin 2.5) (Fin 0) (Fin 2) H)).
Defined.

Lemma w_z_zero_decay_scale_witness :
  1 >= 0
  /\ w_z (Fin 1) (Fin 0.02) (Fin 2.5) (Fin 0) (Fin 0)
     = if Reqb 1 0 then NaN else Fin (-1).
Proof.
  assert (H : 1 >= 0) by lra. split; [exact H|].
  exact (w_z_zero_decay_scale 1 0.02 2.5 0 H).
Defined.

Lemma w_z_today_witness :
  2 <> 0
  /\ w_z (Fin 0) (Fin 0.02) (Fin 2.5) (Fin 0) (Fin 2)
     = Fin (-1 + 0.02 * cos 0).
Proof.
  assert (H : 2 <> 0) by lra. split; [exact H|].
  exact (w_z_today 0.02 2.5 0 2 H).
Defined.

Lemma S_z_complement_witness :
  0.5 <> 0
  /\ exists y1 y2 y y' : R,
       S_z (Fin (4 + 1)) (Fin 4) (Fin 0.5) = Fin y1
       /\ S_z (Fin (4 - 1)) (Fin 4) (Fin 0.5) = Fin y2
       /\ y1 + y2 = 1
       /\ S_z (Fin 3) (Fin 4) (Fin 0.5) = Fin y
       /\ S_z (Fin 3) (Fin 4) (Fin (- (0.5))) = Fin y'
       /\ y' = 1 - y.
Proof.
  assert (H : 0.5 <> 0) by lra. split; [exact H|].
  exact (S_z_complement 3 4 1 0.5 H).
Defined.

Lemma S_z_at_infinity_witness :
  0.5 > 0
  /\ S_z NInf (Fin 4) (Fin 0.5) = Fin 1
  /\ S_z PInf (Fin 4) (Fin 0.5) = Fin 0
  /\ S_z NaN (Fin 4) (Fin 0.5) = NaN.
Proof.
  assert (H : 0.5 > 0) by lra. split; [exact H|].
  exact (S_z_at_infinity 4 0.5 H).
Defined.

Lemma grid_penalised_columns_witness :
  exists t w : f64,
    linspace 0.2 5.0 80 !! 0%nat = Some t
    /\ linspace 0.5 5.5 80 !! 3%nat = Some w
    /\ exists tr wr : R,
         t = Fin tr /\ w = Fin wr
         /\ deterministic_variance t w
            = Fin (0.15 - 0.12 * exp (- ((tr * wr - 2) / 3) ^ 2)
                   + (if (0 <? 2)%nat then 0.1 else 0)).
Proof.
  do 2 eexists.
  assert (Ht : linspace 0.2 5.0 80 !! 0%nat = Some _) by reflexivity.
  assert (Hw : linspace 0.5 5.5 80 !! 3%nat = Some _) by reflexivity.
  split; [exact Ht|]. split; [exact Hw|].
  exact (grid_penalised_columns 3 0 _ _ Ht Hw).
Defined.

Lemma valley_line_samples_witness :
  exists t : f64,
    linspace 0.3 4.0 100 !! 1%nat = Some t
    /\ deterministic_variance t (Fin 2.0 / t)%f64
       = Fin (if (1 =? 0)%nat then 0.13 else 0.03).
Proof.
  eexists.
  assert (Ht : linspace 0.3 4.0 100 !! 1%nat = Some _) by reflexivity.
  split; [exact Ht|]. exact (valley_line_samples 1 _ Ht).
Defined.

(** ** The scalar models with the overflow of [np.exp] *)

Lemma f64_huge_bounds : 1 < Overflow.f64_huge < 2 ^ 1024.
Proof.
  unfold Overflow.f64_huge.
  assert (Hp : 1 <= 2 ^ 1023) by (apply pow_R1_Rle; lra).
  assert (Hq : 1 <= 2 ^ 53) by (apply pow_R1_Rle; lra).
  assert (Hi : 0 < / 2 ^ 53 <= 1).
  { split; [apply Rinv_0_lt_compat; lra|].
    rewrite <- Rinv_1. apply Rinv_le_contravar; lra. }
  rewrite <- (tech_pow_Rmult 2 1023). split; nra.
Qed.

Lemma exp_ge_pow2 (n : nat) : 2 ^ n <= exp (INR n).
Proof.
  induction n as [|n IH].
  - simpl. rewrite exp_0. lra.
  - rewrite S_INR, exp_plus, <- tech_pow_Rmult.
    pose proof (exp_ineq1_le 1). pose proof (exp_pos (INR n)).
    assert (0 < 2 ^ n) by (apply pow_lt; lra). nra.
Qed.

(** From 1024 on the exponential overflows; up to 0 it does not. *)
Lemma exp_overflows (x : R) : 1024 <= x -> Overflow.f64_huge <= exp x.
Proof.
  intros Hx. pose proof f64_huge_bounds as [_ Hh].
  pose proof (exp_ge_pow2 1024) as Hp.
  rewrite INR_IZR_INZ in Hp. change (IZR (Z.of_nat 1024)) with 1024 in Hp.
  assert (exp 1024 <= exp x).
  { destruct Hx as [Hx| <-]; [left; now apply exp_increasing | lra]. }
  lra.
Qed.

Lemma exp_in_range (x : R) : x <= 0 -> exp x < Overflow.f64_huge.
Proof.
  intros Hx. pose proof f64_huge_bounds as [Hh _].
  assert (exp x <= 1).
  { rewrite <- exp_0.
    destruct Hx as [Hx| ->]; [left; now apply exp_increasing | lra]. }
  lra.
Qed.

Lemma overflow_np_exp_in_range (x : R) :
  exp x < Overflow.f64_huge -> Overflow.np_exp (Fin x) = Fin (exp x).
Proof. intros H. simpl. apply Rltb_true in H. now rewrite H. Qed.


(** Below the overflow the two readings of [w_z] agree. *)
Lemma overflow_w_z_fin (z A omega delta z_tau : R) :
  z > -1 -> z_tau <> 0 -> exp (- z / z_tau) < Overflow.f64_huge ->
  Overflow.w_z (Fin z) (Fin A) (Fin omega) (Fin delta) (Fin z_tau)
  = Fin (-1 + A * exp (- z / z_tau) * cos (omega * ln (1 + z) + delta)).
Proof.
  intros Hz Ht He. unfold Overflow.w_z.
  change (- Fin z)%f64 with (Fin (- z)).
  rewrite f64_div_fin by assumption.
  rewrite overflow_np_exp_in_range by assumption.
  change (#1 + Fin z)%f64 with (Fin (1 + z)).
  rewrite np_log_pos by lra. reflexivity.
Qed.


Lemma overflow_S_z_fin (z z_c Delta_z : R) :
  Delta_z <> 0 ->
  Overflow.S_z (Fin z) (Fin z_c) (Fin Delta_z)
  = Fin (saturating_logistic ((z - z_c) / Delta_z)).
Proof.
  intros Hd. unfold Overflow.S_z, saturating_logistic.
  change (Fin z - Fin z_c)%f64 with (Fin (z - z_c)).
  rewrite f64_div_fin by assumption.
  set (u := (z - z_c) / Delta_z). simpl Overflow.np_exp.
  destruct (Rltb (exp u) Overflow.f64_huge).
  - change (#1 + Fin (exp u))%f64 with (Fin (1 + exp u)).
    apply f64_div_fin. pose proof (exp_pos u). lra.
  - reflexivity.
Qed.

Lemma saturating_logistic_range (u : R) : 0 <= saturating_logistic u <= 1.
Proof.
  unfold saturating_logistic. pose proof (logistic_bounds u).
  destruct (Rltb _ _); lra.
Qed.

Lemma saturating_logistic_antitone (u v : R) :
  u <= v -> saturating_logistic v <= saturating_logistic u.
Proof.
  intros Huv. unfold saturating_logistic.
  pose proof (logistic_bounds u). pose proof (logistic_bounds v).
  destruct (Rltb (exp v) Overflow.f64_huge) eqn:Ev,
    (Rltb (exp u) Overflow.f64_huge) eqn:Eu; try lra.
  - destruct Huv as [Huv| ->]; [left; now apply logistic_decreasing | lra].
  - apply Rltb_true in Ev. apply Rltb_false in Eu.
    assert (exp u <= exp v).
    { destruct Huv as [Huv| ->]; [left; now apply exp_increasing | lra]. }
    lra.
Qed.




(** C7, as the code has it.  For a width [Delta_z > 0], [S_z] is
    non-increasing in [z]; its value tends to 1 as [z] tends to minus
    infinity and to 0 as [z] tends to plus infinity. *)
Theorem S_z_nonincreasing_with_limits (z_c Delta_z : R) :
  Delta_z > 0 ->
  (forall z1 z2 : R, z1 < z2 ->
     exists y1 y2 : R,
       Overflow.S_z (Fin z1) (Fin z_c) (Fin Delta_z) = Fin y1
       /\ Overflow.S_z (Fin z2) (Fin z_c) (Fin Delta_z) = Fin y2
       /\ y1 >= y2)
  /\ (forall eps : R, eps > 0 ->
        exists m : R, forall z : R, z < m ->
          exists y : R,
            Overflow.S_z (Fin z) (Fin z_c) (Fin Delta_z) = Fin y
            /\ Rabs (y - 1) < eps)
  /\ (forall eps : R, eps > 0 ->
        exists m : R, forall z : R, z > m ->
          exists y : R,
            Overflow.S_z (Fin z) (Fin z_c) (Fin Delta_z) = Fin y
            /\ Rabs (y - 0) < eps).
Proof.
  intros Hd. assert (Hd0 : Delta_z <> 0) by lra.
  assert (Hinv : 0 < / Delta_z) by now apply Rinv_0_lt_compat.
  repeat split.
  - intros z1 z2 Hz. do 2 eexists.
    split; [now apply overflow_S_z_fin|].
    split; [now apply overflow_S_z_fin|].
    apply Rle_ge, saturating_logistic_antitone. unfold Rdiv. nra.
  - intros eps Heps. exists (Rmin z_c (z_c + Delta_z * ln eps)). intros z Hz.
    eexists. split; [now apply overflow_S_z_fin|].
    set (u := (z - z_c) / Delta_z).
    pose proof (Rmin_l z_c (z_c + Delta_z * ln eps)).
    pose proof (Rmin_r z_c (z_c + Delta_z * ln eps)).
    assert (Hu0 : u <= 0) by (unfold u, Rdiv; nra).
    assert (Hu : u < ln eps).
    { unfold u. apply Rmult_lt_reg_r with Delta_z; [lra|].
      unfold Rdiv. rewrite Rmult_assoc, Rinv_l by assumption. lra. }
    unfold saturating_logistic.
    pose proof (exp_in_range u Hu0) as Hr. apply Rltb_true in Hr. rewrite Hr.
    pose proof (logistic_bounds u). pose proof (logistic_tail_low u).
    apply exp_increasing in Hu. rewrite exp_ln in Hu by lra.
    rewrite Rabs_left; lra.
  - intros eps Heps. exists (z_c - Delta_z * ln eps). intros z Hz.
    eexists. split; [now apply overflow_S_z_fin|].
    set (u := (z - z_c) / Delta_z).
    unfold saturating_logistic.
    destruct (Rltb (exp u) Overflow.f64_huge).
    + pose proof (logistic_bounds u). pose proof (logistic_tail_high u).
      assert (Hu : - u < ln eps).
      { unfold u. apply Rmult_lt_reg_r with Delta_z; [lra|].
        unfold Rdiv.
        rewrite Ropp_mult_distr_l, Rmult_assoc, Rinv_l by assumption. lra. }
      apply exp_increasing in Hu. rewrite exp_ln in Hu by lra.
      rewrite Rabs_right; lra.
    + rewrite Rminus_0_r, Rabs_R0. lra.
Qed.

Lemma S_z_nonincreasing_with_limits_witness :
  0.5 > 0
  /\ exists y1 y2 : R,
       Overflow.S_z (Fin 3) (Fin 4) (Fin 0.5) = Fin y1
       /\ Overflow.S_z (Fin 5) (Fin 4) (Fin 0.5) = Fin y2
       /\ y1 >= y2.
Proof.
  assert (H : 0.5 > 0) by lra. assert (H35 : 3 < 5) by lra.
  split; [exact H|].
  exact (proj1 (S_z_nonincreasing_with_limits 4 0.5 H) 3 5 H35).
Defined.

(** C7 as stated fails where the result has saturated: with the
    defaults [z_c = 4.0] and [Delta_z = 0.5 > 0] the exponential has
    overflowed at [z = 1004] and at [z = 2004], and [S_z] returns
    exactly 0 at both, so it is not strictly decreasing. *)
Lemma S_z_saturates_at_zero :
  0.5 > 0 /\ 1004 < 2004
  /\ Overflow.S_z (Fin 1004) (Fin 4.0) (Fin 0.5) = Fin 0
  /\ Overflow.S_z (Fin 2004) (Fin 4.0) (Fin 0.5) = Fin 0
  /\ ~ (exists y1 y2 : R,
          Overflow.S_z (Fin 1004) (Fin 4.0) (Fin 0.5) = Fin y1
          /\ Overflow.S_z (Fin 2004) (Fin 4.0) (Fin 0.5) = Fin y2
          /\ y1 > y2).
Proof.
  assert (Hsat : forall z : R, 1004 <= z ->
            Overflow.S_z (Fin z) (Fin 4.0) (Fin 0.5) = Fin 0).
  { intros z Hz. rewrite overflow_S_z_fin by lra. f_equal.
    unfold saturating_logistic.
    assert (Hu : 1024 <= (z - 4.0) / 0.5) by lra.
    apply exp_overflows, Rltb_false in Hu. now rewrite Hu. }
  split; [lra|]. split; [lra|].
  split; [apply Hsat; lra|]. split; [apply Hsat; lra|].
  intros (y1 & y2 & H1 & H2 & Hlt).
  rewrite Hsat in H1, H2 by lra.
  apply Fin_inj in H1, H2. lra.
Qed.

(** X1.  For [z >= 0] and [z_tau > 0] the exponential is at most 1:
    [w_z] returns a real value that stays inside the decaying envelope
    [|A| exp(-z/z_tau)] around [-1], and so within [|A|] of [-1]. *)
Theorem w_z_envelope (z A omega delta z_tau : R) :
  z >= 0 -> z_tau > 0 ->
  exists w : R,
    Overflow.w_z (Fin z) (Fin A) (Fin omega) (Fin delta) (Fin z_tau) = Fin w
    /\ w_z (Fin z) (Fin A) (Fin omega) (Fin delta) (Fin z_tau) = Fin w
    /\ Rabs (w + 1) <= Rabs A * exp (- z / z_tau)
    /\ -1 - Rabs A <= w <= -1 + Rabs A.
Proof.
  intros Hz Ht.
  destruct (w_z_oscillation z A omega delta z_tau) as (w & Hw & Henv & Hb);
    [lra..|].
  exists w. rewrite w_z_fin in Hw by lra. apply Fin_inj in Hw.
  split.
  - rewrite overflow_w_z_fin; [now rewrite Hw | lra | lra |].
    apply exp_in_range. unfold Rdiv.
    assert (0 < / z_tau) by now apply Rinv_0_lt_compat. nra.
  - split; [rewrite w_z_fin by lra; now rewrite Hw|].
    split; [exact Henv | now apply Hb].
Qed.

Lemma w_z_envelope_witness :
  1 >= 0 /\ 2 > 0
  /\ exists w : R,
       Overflow.w_z (Fin 1) (Fin 0.02) (Fin 2.5) (Fin 0) (Fin 2) = Fin w
       /\ w_z (Fin 1) (Fin 0.02) (Fin 2.5) (Fin 0) (Fin 2) = Fin w
       /\ Rabs (w + 1) <= Rabs 0.02 * exp (- 1 / 2)
       /\ -1 - Rabs 0.02 <= w <= -1 + Rabs 0.02.
Proof.
  assert (H1 : 1 >= 0) by lra. assert (H2 : 2 > 0) by lra.
  split; [exact H1|]. split; [exact H2|].
  exact (w_z_envelope 1 0.02 2.5 0 2 H1 H2).
Defined.

(** X5.  For a width [Delta_z <> 0] the value of [S_z] is a real
    number between 0 and 1, both included: it is exactly 0 once the
    exponential has overflowed. *)
Theorem S_z_range (z z_c Delta_z : R) :
  Delta_z <> 0 ->
  exists y : R,
    Overflow.S_z (Fin z) (Fin z_c) (Fin Delta_z) = Fin y /\ 0 <= y <= 1.
Proof.
  intros Hd. eexists. split; [now apply overflow_S_z_fin|].
  apply saturating_logistic_range.
Qed.

Lemma S_z_range_witness :
  0.5 <> 0
  /\ exists y : R,
       Overflow.S_z (Fin 3) (Fin 4) (Fin 0.5) = Fin y /\ 0 <= y <= 1.
Proof.
  assert (H : 0.5 <> 0) by lra. split; [exact H|].
  exact (S_z_range 3 4 0.5 H).
Defined.

(** X7.  For a width [Delta_z > 0], moving the centre to a later
    redshift never lowers the cutoff, at any [z]. *)
Theorem S_z_nondecreasing_in_centre (z z_c1 z_c2 Delta_z : R) :
  Delta_z > 0 -> z_c1 < z_c2 ->
  exists y1 y2 : R,
    Overflow.S_z (Fin z) (Fin z_c1) (Fin Delta_z) = Fin y1
    /\ Overflow.S_z (Fin z) (Fin z_c2) (Fin Delta_z) = Fin y2
    /\ y1 <= y2.
Proof.
  intros Hd Hc. assert (Hd0 : Delta_z <> 0) by lra.
  do 2 eexists. split; [now apply overflow_S_z_fin|].
  split; [now apply overflow_S_z_fin|].
  apply saturating_logistic_antitone. unfold Rdiv.
  assert (0 < / Delta_z) by now apply Rinv_0_lt_compat. nra.
Qed.

Lemma S_z_nondecreasing_in_centre_witness :
  0.5 > 0 /\ 3 < 5
  /\ exists y1 y2 : R,
       Overflow.S_z (Fin 4) (Fin 3) (Fin 0.5) = Fin y1
       /\ Overflow.S_z (Fin 4) (Fin 5) (Fin 0.5) = Fin y2
       /\ y1 <= y2.
Proof.
  assert (H : 0.5 > 0) by lra. assert (Hc : 3 < 5) by lra.
  split; [exact H|]. split; [exact Hc|].
  exact (S_z_nondecreasing_in_centre 4 3 5 0.5 H Hc).
Defined.
